(** * supersh: a shallow embedding of [supersh-beta.c]

    The development follows the source file top to bottom: the C string
    primitives the shell calls, the [Input] and [Job] records, the
    built-in commands, [parse_inbuf], and one iteration of the [while(1)]
    loop of [main].  Theorems about the embedding come after all the
    definitions.

    Conventions.
    - A [char*] is modelled by the initialised bytes found from the pointer
      on (a [list ascii], terminator and what follows it included); the C
      string it denotes is [cstr] of that list.  Inside [parse_inbuf], where
      pointers into the line buffer are compared and written through, a
      pointer is an offset into the buffer.
    - Line buffers and argument vectors are never written again once
      [parse_inbuf] has returned, and never freed; records that share one
      therefore carry equal values.
    - [Job] nodes live in a heap ([gmap nat Job]) because the sweep of
      [main] splices the list in place through pointers that may be stale.
      Reading or writing a freed node, and dereferencing a null pointer,
      is undefined behaviour: the model answers [None].
    - A null pointer handed to [printf] or [execvp] is recorded in the
      event as [None]; what the C library does with it is not modelled.
    - The model does not track the extent of heap blocks, and every
      allocation succeeds.
    - [unsigned int] and [unsigned long] counters are [N] with their
      wrap-around written out (32 and 64 bits, the LP64 data model). *)

From stdpp Require Import base option list strings gmap.
From Stdlib Require Import ZArith NArith Lia Ascii.

Open Scope N_scope.

(** ** C strings *)

Definition NUL : ascii := "000"%char.

(** String literals of the source, as byte lists. *)
Definition cs (s : string) : list ascii := String.list_ascii_of_string s.

(** [*p] and [*p = c] on a buffer addressed by offset.  Bytes past the
    end of the list are never read by the code that uses [peek]: every
    buffer ends with the terminator [fgets] stored. *)
Definition peek (b : list ascii) (p : nat) : ascii := default NUL (b !! p).
Definition poke (b : list ascii) (p : nat) (c : ascii) : list ascii := <[p := c]> b.

(** Membership in [" \t\r\n\v\f"]; also [isspace] in the C locale. *)
Definition is_ws (c : ascii) : bool :=
  bool_decide (c ∈ [" "%char; "009"%char; "013"%char; "010"%char; "011"%char; "012"%char]).

Definition is_nul (c : ascii) : bool := bool_decide (c = NUL).

(** Length of the longest prefix whose bytes all satisfy [f]. *)
Fixpoint span (f : ascii → bool) (s : list ascii) : nat :=
  match s with
  | c :: s' => if f c then S (span f s') else 0%nat
  | [] => 0%nat
  end.

Definition strlen (s : list ascii) : nat := span (λ c, negb (is_nul c)) s.
Definition cstr (s : list ascii) : list ascii := take (strlen s) s.

(** [strspn(p," \t\r\n\v\f")] and [strcspn(p," \t\r\n\v\f")]. *)
Definition strspn_ws (s : list ascii) : nat := span is_ws s.
Definition strcspn_ws (s : list ascii) : nat :=
  span (λ c, negb (is_ws c) && negb (is_nul c)) s.

(** [strchr(p,c)] for [c] other than the terminator: the offset from [p]
    of the first [c] before the terminator, [None] for a null result. *)
Fixpoint strchr (s : list ascii) (c : ascii) : option nat :=
  match s with
  | [] => None
  | x :: s' =>
      if bool_decide (x = c) then Some 0%nat
      else if is_nul x then None
      else S <$> strchr s' c
  end.

(** [strpbrk(line," \t")]. *)
Fixpoint strpbrk_sp_tab (s : list ascii) : option nat :=
  match s with
  | [] => None
  | x :: s' =>
      if bool_decide (x = " "%char ∨ x = "009"%char) then Some 0%nat
      else if is_nul x then None
      else S <$> strpbrk_sp_tab s'
  end.

(** [!strncmp(in,name,strlen(name))] for a literal [name]. *)
Definition starts_with (name : string) (b : list ascii) : bool :=
  bool_decide (take (length (cs name)) b = cs name).

(** [strtoul(s,NULL,10)]: optional white space, optional sign, the
    longest run of decimal digits; no digits give 0, a value that does
    not fit gives [ULONG_MAX], a minus sign negates modulo 2^64. *)
Definition ULONG_MAX : N := 2 ^ 64 - 1.

Definition digit_val (c : ascii) : option N :=
  let n := N_of_ascii c in
  if (48 <=? n) && (n <=? 57) then Some (n - 48) else None.

Fixpoint strtoul_digits (s : list ascii) (acc : N) : N :=
  match s with
  | c :: s' =>
      match digit_val c with
      | Some d => strtoul_digits s' (acc * 10 + d)
      | None => acc
      end
  | [] => acc
  end.

Definition strtoul (s : list ascii) : N :=
  let s1 := drop (span is_ws s) s in
  let '(neg, s2) :=
    match s1 with
    | c :: t =>
        if bool_decide (c = "-"%char) then (true, t)
        else if bool_decide (c = "+"%char) then (false, t)
        else (false, s1)
    | [] => (false, s1)
    end in
  let v := strtoul_digits s2 0 in
  if ULONG_MAX <? v then ULONG_MAX
  else if neg then (2 ^ 64 - v) mod 2 ^ 64
  else v.

(** ** Records of the source *)

(** The six functions an [internal] pointer can hold. *)
Inductive handler :=
  | h_echo | h_exit | h_help | h_history | h_jobs | h_set.

(** [struct Input_def].  [next] is the list structure of [histlist]; a
    node copied by [memcpy] carries a [next] that nothing reads.
    [cmdvec] is [None] for the null pointer [calloc] leaves; otherwise
    it is the whole allocated array, null sentinels included. *)
Record Input := {
  cmdvec : option (list (option (list ascii)));
  internal : option handler;
  background : bool;
  historical : bool
}.

(** What [calloc(1,sizeof(Input))] returns. *)
Definition Input_zero : Input :=
  {| cmdvec := None; internal := None; background := false; historical := false |}.

(** [struct Job_def]. *)
Record Job := {
  pid : Z;
  cmdbuf : list ascii;
  next : option nat
}.

(** The globals of the shell and the local [count_commands] of [main]. *)
Record shell := {
  histlist : list Input;
  jobheap : gmap nat Job;
  joblist : option nat;
  count_commands : N;
  environ : list (list ascii)
}.

(** ** The process environment of one loop iteration *)

Inductive signal :=
  | SIGABRT | SIGFPE | SIGILL | SIGINT | SIGSEGV | SIGTERM | SIGother (n : N).

(** A wait status as the [W*] macros read it. *)
Inductive wstatus :=
  | WExited (code : N)
  | WSignaled (sig : signal) (core : bool).

(** [waitpid(pid,&stat_loc,WNOHANG)]: the status stored when the call
    returns [pid], [WaitNone] when it returns 0 or -1. *)
Inductive wait_result :=
  | WaitChanged (s : wstatus)
  | WaitNone.

Inductive fork_result :=
  | ForkChild
  | ForkError (err : list ascii)
  | ForkParent (child : Z).

Record world := {
  getuid : N;
  waitpid_nohang : Z → wait_result;
  fork : fork_result;
  (** status left in [stat_loc] by the blocking [waitpid]; [stat_loc]
      starts at 0, which reads as [WExited 0] *)
  waitpid_fg : wstatus;
  (** [None] when [execvp] succeeds, else the text of [strerror(errno)] *)
  execvp : option (list ascii)
}.

(** Messages of [shfault]. *)
Inductive fault :=
  | FSyntaxEq
  | FEventNotFound (hr : N)
  | FExec (name : option (list ascii)) (err : list ascii)
  | FErr (err : list ascii).

(** Output and system calls, in the order the shell performs them. *)
Inductive event :=
  | EvPrompt (count : N) (root : bool)
  | EvFgets (line : option (list ascii))
  | EvWaitpid (p : Z) (nohang : bool)
  | EvPuts (s : list ascii)
  | EvNewline
  | EvPerror (s : list ascii)
  | EvFault (f : fault)
  | EvHistory (cnt : N) (name : option (list ascii)) (bg : bool)
  | EvRunning (p : Z) (cnt : N) (argv : list ascii)
  | EvEnd (p : Z) (cnt : N) (argv : list ascii) (code : N)
  | EvBegin (p : Z) (cnt : N) (argv : list ascii)
  | EvSignal (name : list ascii) (core : bool)
  | EvPutenv (binding : list ascii)
  | EvFork
  | EvExecvp (file : option (list ascii)) (argv : list (option (list ascii))).

(** How an iteration of the loop of [main] ends: at [continue] (or the
    end of the body), in [exit], or in a successful [execvp]. *)
Inductive outcome :=
  | Continue (st : shell)
  | Exited (st : shell)
  | Replaced.

Definition outcome_state (o : outcome) : option shell :=
  match o with
  | Continue st | Exited st => Some st
  | Replaced => None
  end.

Definition UINT_MOD : N := 2 ^ 32.
Definition ULONG_MOD : N := 2 ^ 64.

(** ** wait_handler *)

Definition signame (s : signal) : list ascii :=
  match s with
  | SIGABRT => cs "Aborted"
  | SIGFPE => cs "Floating Point Exception"
  | SIGILL => cs "Illegal Instruction"
  | SIGINT => cs "Interrupted"
  | SIGSEGV => cs "Segmentation Fault"
  | SIGTERM => cs "Terminated"
  | SIGother _ => cs "Signaled"
  end.

Definition wait_handler (stat_loc : wstatus) : list event :=
  match stat_loc with
  | WSignaled s core => [EvSignal (signame s) core; EvNewline]
  | WExited _ => []
  end.

(** ** Built-in commands *)

Definition builtin_echo (line : list ascii) : list event :=
  match strpbrk_sp_tab line with
  | Some k =>
      if is_nul (peek line (S k)) then [EvNewline]
      else [EvPuts (cstr (drop (S k) line))]
  | None => [EvNewline]
  end.

(** [Some true] when the shell exits.  [line+4] is read whatever the
    length of [line]: the source states [strlen(line)>3] as a
    precondition. *)
Definition builtin_exit (line : list ascii) : option bool :=
  c ← line !! 4%nat; Some (is_nul c).

Definition LF : ascii := "010"%char.

Definition builtin_help : list event :=
  [ EvPuts (LF :: cs "supersh by Derek Callaway");
    EvPuts (cs "^^^^^^^^^^^^^^^^^^^^^^^^^");
    EvPuts (cs "echo    - output messages to terminal standard output");
    EvPuts (cs "exit    - terminate shell process");
    EvPuts (cs "help    - print this message");
    EvPuts (cs "history - view previously executed commands");
    EvPuts (cs "jobs    - list background commands");
    EvPuts (cs "set     - assign environment variable values" ++ [LF]) ].

(** The loop of [builtin_history] from node [hp] on, [cnt] nodes having
    been printed. *)
Fixpoint builtin_history_from (hp : list Input) (cnt : N) : option (list event) :=
  match hp with
  | [] => Some []
  | h :: hp' =>
      cv ← cmdvec h;
      name ← head cv;
      let cnt' := (cnt + 1) mod UINT_MOD in
      rest ← builtin_history_from hp' cnt';
      Some (EvHistory cnt' (cstr <$> name) (background h) :: rest)
  end.

Definition builtin_history (hl : list Input) : option (list event) :=
  builtin_history_from hl 0.

(** The loop of [builtin_jobs] from node [jp] on.  [fuel] bounds the
    number of nodes visited. *)
Fixpoint builtin_jobs_from (fuel : nat) (h : gmap nat Job) (jp : option nat) (cnt : N)
    : option (list event) :=
  match jp with
  | None => Some []
  | Some a =>
      match fuel with
      | O => None
      | S fuel' =>
          j ← h !! a;
          let cnt' := (cnt + 1) mod UINT_MOD in
          rest ← builtin_jobs_from fuel' h (next j) cnt';
          Some (EvRunning (pid j) cnt' (cstr (cmdbuf j)) :: rest)
      end
  end.

Definition builtin_jobs (h : gmap nat Job) (jl : option nat) : option (list event) :=
  builtin_jobs_from (size h) h jl 0.

(** [putenv] of the C library, for a string that contains ['=']: the
    string replaces the first entry of [environ] with the same name, or
    is added at the end.  [builtin_set] never passes a string without
    ['=']. *)
Fixpoint putenv_replace (key binding : list ascii) (env : list (list ascii))
    : option (list (list ascii)) :=
  match env with
  | [] => None
  | e :: env' =>
      if bool_decide (take (length key) e = key) then Some (binding :: env')
      else (e ::.) <$> putenv_replace key binding env'
  end.

Definition putenv (env : list (list ascii)) (binding : list ascii) : list (list ascii) :=
  match strchr binding "="%char with
  | Some k => default (env ++ [binding]) (putenv_replace (take (S k) binding) binding env)
  | None => env
  end.

(** [builtin_set]: the events and the new [environ].  After [shfault]
    the source goes on to build and install the binding. *)
Definition builtin_set (env : list (list ascii)) (line : list ascii)
    : option (list event * list (list ascii)) :=
  match drop 3 line with
  | [] => None
  | p0 =>
      match drop (strspn_ws p0) p0 with
      | [] => None
      | (c :: _) as p =>
          if is_nul c then Some (EvPuts <$> env, env)
          else
            let eq_flag := strchr p "="%char in
            let ev := if bool_decide (eq_flag = Some 0%nat) then [EvFault FSyntaxEq] else [] in
            let binding :=
              match eq_flag with
              | Some _ => cstr p
              | None => cstr p ++ ["="%char]
              end in
            Some (ev ++ [EvPutenv binding], putenv env binding)
      end
  end.

(** [input_data->internal(arg)] as [main] calls it. *)
Definition call_internal (h : handler) (st : shell) (arg : option (list ascii))
    : option (list event * outcome) :=
  match h with
  | h_echo => line ← arg; Some (builtin_echo line, Continue st)
  | h_exit =>
      line ← arg; e ← builtin_exit line;
      Some ([], if (e : bool) then Exited st else Continue st)
  | h_help => Some (builtin_help, Continue st)
  | h_history => ev ← builtin_history (histlist st); Some (ev, Continue st)
  | h_jobs => ev ← builtin_jobs (jobheap st) (joblist st); Some (ev, Continue st)
  | h_set =>
      line ← arg;
      '(ev, env) ← builtin_set (environ st) line;
      Some (ev, Continue {| histlist := histlist st; jobheap := jobheap st;
                            joblist := joblist st; count_commands := count_commands st;
                            environ := env |})
  end.

(** ** parse_inbuf *)

(** The [if]-[else] chain that recognises a built-in at the start of
    the line. *)
Definition find_internal (b : list ascii) : option handler :=
  if starts_with "echo" b && is_ws (peek b 4) then Some h_echo
  else if starts_with "exit" b && is_ws (peek b 4) then Some h_exit
  else if starts_with "help" b && is_ws (peek b 4) then Some h_help
  else if starts_with "history" b && is_ws (peek b 7) then Some h_history
  else if starts_with "jobs" b && is_ws (peek b 4) then Some h_jobs
  else if starts_with "set" b && is_ws (peek b 3) then Some h_set
  else None.

(** [for(hp=histlist;hp;hp=hp->next) if(++cnt==hr) break;] : the node
    [hp] and the counter the loop ends with. *)
Fixpoint hist_find (hp : list Input) (cnt hr : N) : option Input * N :=
  match hp with
  | [] => (None, cnt)
  | h :: hp' =>
      let cnt' := (cnt + 1) mod UINT_MOD in
      if cnt' =? hr then (Some h, cnt') else hist_find hp' cnt' hr
  end.

(** The [do]-[while] loop that fills [cl]: the buffer and the offsets
    stored so far, [p] the offset the iteration starts at.  An
    iteration moves [p] forward, so [fuel] = the length of the buffer is
    enough. *)
Fixpoint tokenize (fuel : nat) (b : list ascii) (p : nat) (cl : list nat)
    : option (list ascii * list nat) :=
  match fuel with
  | O => None
  | S fuel' =>
      let p1 := (p + strspn_ws (drop p b))%nat in
      if is_nul (peek b p1) then Some (b, cl)
      else
        let oldp := p1 in
        let p2 := (p1 + strcspn_ws (drop p1 b))%nat in
        let cl' := cl ++ [oldp] in
        if is_nul (peek b p2) then Some (b, cl')
        else
          let b' := poke b p2 NUL in
          if is_nul (peek b' (S p2)) then Some (b', cl')
          else tokenize fuel' b' (S p2) cl'
  end.

(** [do amp--; while(amp>in && isspace( *amp ));] entered with [amp]. *)
Fixpoint back_ws (b : list ascii) (amp : nat) : nat :=
  match amp with
  | O => O
  | S a => if (0 <? a)%nat && is_ws (peek b a) then back_ws b a else a
  end.

(** What [parse_inbuf] hands back: the messages it printed, the record
    (or a null pointer) and the line buffer as it leaves it. *)
Definition parsed : Type := list event * option Input * list ascii.

(** The last lines of [parse_inbuf]: the walk back from [amp] over
    white space, the terminator written after it, and the record
    returned.  [vec] holds the offsets in [ret->cmdvec]. *)
Definition parse_trim (int : option handler) (b : list ascii)
    (vec : list (option nat)) (bg : bool) (amp : nat) : parsed :=
  let b' := if bool_decide (amp = 0%nat) then b else poke b (S (back_ws b amp)) NUL in
  ([], Some {| cmdvec := Some (fmap (M := option) (λ o, drop o b') <$> vec);
               internal := int; background := bg; historical := false |}, b').

(** From [*pp=NULL] to the end of the function: [cl] holds the [len]
    offsets stored, [b] is the line buffer.  [cl[len-1]] with [len] = 0
    reads before the array. *)
Definition parse_tail (int : option handler) (b : list ascii) (cl : list nat)
    : option parsed :=
  let len := length cl in
  let vec : list (option nat) := (Some <$> cl) ++ [None] in
  p ← last cl;
  match strchr (drop p b) "&"%char with
  | Some k =>
      let vec' := if bool_decide (k = 0%nat) then <[(len - 1)%nat := None]> vec else vec in
      Some (parse_trim int b vec' true (p + k)%nat)
  | None => Some (parse_trim int b vec false (p + strlen (drop p b))%nat)
  end.

Definition parse_inbuf (hl : list Input) (b : list ascii) : option parsed :=
  let int := find_internal b in
  match int with
  | Some _ => parse_tail int b [0%nat]
  | None =>
      match strchr b "!"%char with
      | Some e =>
          let exc := S e in
          let p := (exc + strcspn_ws (drop exc b))%nat in
          let b' := poke b p NUL in
          let hr := strtoul (drop exc b') in
          if hr =? 0 then Some ([EvPerror (cs "strtoul")], None, b')
          else
            let '(hp, cnt) := hist_find hl 0 hr in
            if negb (cnt =? hr) then Some ([EvFault (FEventNotFound hr)], None, b')
            else
              h ← hp;
              Some ([], Some {| cmdvec := cmdvec h; internal := internal h;
                                background := background h; historical := true |}, b')
      | None =>
          '(b', cl) ← tokenize (length b) b 0 [];
          parse_tail None b' cl
      end
  end.

(** ** The loop of main *)

Definition with_jobs (st : shell) (h : gmap nat Job) (jl : option nat) : shell :=
  {| histlist := histlist st; jobheap := h; joblist := jl;
     count_commands := count_commands st; environ := environ st |}.

Definition with_hist (st : shell) (hl : list Input) : shell :=
  {| histlist := hl; jobheap := jobheap st; joblist := joblist st;
     count_commands := count_commands st; environ := environ st |}.

Definition with_count (st : shell) (n : N) : shell :=
  {| histlist := histlist st; jobheap := jobheap st; joblist := joblist st;
     count_commands := n; environ := environ st |}.

Definition set_next (j : Job) (n : option nat) : Job :=
  {| pid := pid j; cmdbuf := cmdbuf j; next := n |}.

(** The [for] loop over [joblist] at the top of the body, entered with
    [jptr], [jprev] and [cnt]: the lines printed and calls made, the heap
    and [joblist] it leaves.  [free] deletes a node from the heap, so a
    later read or write through a pointer to it is [None].  [fuel]
    bounds the number of nodes visited. *)
Fixpoint sweep_from (fuel : nat) (w : world) (h : gmap nat Job)
    (jl jptr jprev : option nat) (cnt : N)
    : option (list event * gmap nat Job * option nat) :=
  match jptr with
  | None => Some ([], h, jl)
  | Some a =>
      match fuel with
      | O => None
      | S fuel' =>
          j ← h !! a;
          let cnt' := (cnt + 1) mod UINT_MOD in
          let call := EvWaitpid (pid j) true in
          match waitpid_nohang w (pid j) with
          | WaitNone =>
              '(ev, h', jl') ← sweep_from fuel' w h jl (next j) jprev cnt';
              Some (call :: ev, h', jl')
          | WaitChanged (WExited code) =>
              let line := EvEnd (pid j) cnt' (cstr (cmdbuf j)) code in
              match next j with
              | Some n =>
                  '(h1, jl1) ←
                    match jprev with
                    | Some pv =>
                        jp ← h !! pv;
                        Some (<[pv := set_next jp (Some n)]> h, jl)
                    | None => Some (h, Some n)
                    end;
                  let h2 := delete a h1 in
                  (* jprev=jptr; then jptr=jptr->next reads the freed node *)
                  j' ← h2 !! a;
                  '(ev, h', jl') ← sweep_from fuel' w h2 jl1 (next j') (Some a) cnt';
                  Some (call :: line :: ev, h', jl')
              | None =>
                  (* free(joblist); joblist=NULL; break; *)
                  h1 ← match jl with
                        | Some hd => _ ← h !! hd; Some (delete hd h)
                        | None => Some h
                        end;
                  Some ([call; line], h1, None)
              end
          | WaitChanged (WSignaled s core as stat_loc) =>
              '(ev, h', jl') ← sweep_from fuel' w h jl (next j) (Some a) cnt';
              Some (call :: wait_handler stat_loc ++ ev, h', jl')
          end
      end
  end.

Definition sweep (w : world) (st : shell)
    : option (list event * gmap nat Job * option nat) :=
  sweep_from (size (jobheap st)) w (jobheap st) (joblist st) (joblist st) None 0.

(** [for(jptr=joblist;jptr&&jptr->next;jptr=jptr->next) cnt++;] *)
Fixpoint job_last (fuel : nat) (h : gmap nat Job) (jptr : option nat) (cnt : N)
    : option (option nat * N) :=
  match jptr with
  | None => Some (None, cnt)
  | Some a =>
      j ← h !! a;
      match next j with
      | None => Some (Some a, cnt)
      | Some n =>
          match fuel with
          | O => None
          | S fuel' => job_last fuel' h (Some n) ((cnt + 1) mod UINT_MOD)
          end
      end
  end.

(** The parent's branch for a background command: a node is allocated
    and linked after the last one.  The source never stores the [next]
    of the new node; the model takes it to be null, as zero-filled
    memory gives. *)
Definition job_insert (st : shell) (child : Z) (inbuf : list ascii)
    : option (list event * shell) :=
  '(jptr, cnt) ← job_last (size (jobheap st)) (jobheap st) (joblist st) 0;
  let a := fresh (dom (jobheap st)) in
  let node := {| pid := child; cmdbuf := inbuf; next := None |} in
  '(h1, jl1) ←
    match jptr with
    | None => Some (jobheap st, Some a)
    | Some t => jt ← jobheap st !! t; Some (<[t := set_next jt (Some a)]> (jobheap st), joblist st)
    end;
  Some ([EvBegin child ((cnt + 1) mod UINT_MOD) (cstr inbuf)],
        with_jobs st (<[a := node]> h1) jl1).

(** Events [ev] happened, then the rest of the body ran. *)
Definition after (ev : list event) (r : option (list event * outcome))
    : option (list event * outcome) :=
  match r with
  | Some (ev', o) => Some (ev ++ ev', o)
  | None => None
  end.

(** [hptr->cmdvec=...; hptr->background=...; hptr->internal=...;] with
    [hptr] the last node of the list. *)
Definition hist_store (hl : list Input) (d : Input) : list Input :=
  alter (λ n, {| cmdvec := cmdvec d; internal := internal d;
                 background := background d; historical := historical n |})
        (length hl - 1)%nat hl.

Section Main.

(** [BUFSIZ] of [<stdio.h>]. *)
Variable BUFSIZ : N.

(** The block that links a zero-filled node at the tail of [histlist]
    and leaves [hptr] on it.  When the head is freed and is also the
    node [hptr] stands on, the store through [hptr] is undefined. *)
Definition hist_append (hl : list Input) : option (list Input) :=
  match hl with
  | [] => Some [Input_zero]
  | _ :: tl =>
      let cnt := N.of_nat (length hl) mod UINT_MOD in
      if BUFSIZ <=? cnt then
        match tl with
        | [] => None
        | _ => Some (tl ++ [Input_zero])
        end
      else Some (hl ++ [Input_zero])
  end.

(** From [pid=fork()] to the end of the body. *)
Definition launch (w : world) (st : shell) (input_data : Input) (inbuf : list ascii)
    : option (list event * outcome) :=
  after [EvFork]
    match fork w with
    | ForkChild =>
        match internal input_data with
        | Some f =>
            '(ev, o) ← call_internal f st (Some inbuf);
            st' ← outcome_state o;
            Some (ev, Exited st')
        | None =>
            cv ← cmdvec input_data;
            file ← head cv;
            after [EvExecvp (cstr <$> file) (fmap (M := option) cstr <$> cv)]
              match execvp w with
              | None => Some ([], Replaced)
              | Some err => Some ([EvFault (FExec (cstr <$> file) err)], Exited st)
              end
        end
    | ForkError err => Some ([EvFault (FErr err)], Continue st)
    | ForkParent child =>
        if background input_data then
          '(ev, st') ← job_insert st child inbuf;
          Some (ev, Continue st')
        else
          Some (EvWaitpid child false :: wait_handler (waitpid_fg w), Continue st)
    end.

(** The body from [if(input_data->internal&&!input_data->background)]
    on: a foreground built-in is called in the shell, anything else is
    forked. *)
Definition dispatch (w : world) (st : shell) (input_data : Input) (inbuf : list ascii)
    : option (list event * outcome) :=
  match internal input_data, background input_data with
  | Some f, false =>
      arg ← (if historical input_data
             then cv ← cmdvec input_data; head cv
             else Some (Some inbuf));
      call_internal f st arg
  | _, _ => launch w st input_data inbuf
  end.

(** The test [main] makes after [p+=strspn(p," \t\r\n\v\f")]. *)
Definition blank_line (line : list ascii) : bool :=
  let inbuf := line ++ [NUL] in
  is_nul (peek inbuf (strspn_ws inbuf)).

Definition prompt (w : world) (st : shell) : event :=
  EvPrompt (count_commands st) (bool_decide (getuid w = 0)).

(** One pass through the body of [while(1)]: [input] is what [fgets]
    stored, [None] when it returned a null pointer. *)
Definition main_iter (w : world) (st : shell) (input : option (list ascii))
    : option (list event * outcome) :=
  after [prompt w st; EvFgets input]
    match input with
    | None => Some ([], Exited st)
    | Some line =>
        let inbuf := line ++ [NUL] in
        '(ev_sweep, h, jl) ← sweep w st;
        let st := with_jobs st h jl in
        after ev_sweep
          (if blank_line line then Some ([], Continue st)
           else
             let st := with_count st ((count_commands st + 1) mod ULONG_MOD) in
             hl ← hist_append (histlist st);
             let st := with_hist st hl in
             '(ev_parse, ret, inbuf) ← parse_inbuf (histlist st) inbuf;
             after ev_parse
               match ret with
               | None => Some ([], Continue st)
               | Some input_data =>
                   dispatch w (with_hist st (hist_store (histlist st) input_data))
                            input_data inbuf
               end)
    end.

(** The shell before the first iteration.  The greeting and the two
    [signal] calls that precede the loop belong to no iteration. *)
Definition shell_init (env : list (list ascii)) : shell :=
  {| histlist := []; jobheap := ∅; joblist := None;
     count_commands := 1; environ := env |}.

(** The loop run on the lines [fgets] delivers, one process environment
    per iteration; it stops with the first iteration that does not reach
    [continue]. *)
Fixpoint main_loop (inputs : list (world * option (list ascii))) (st : shell)
    : option (list event * outcome) :=
  match inputs with
  | [] => Some ([], Continue st)
  | (w, input) :: rest =>
      '(ev, o) ← main_iter w st input;
      match o with
      | Continue st' => after ev (main_loop rest st')
      | _ => Some (ev, o)
      end
  end.

End Main.

(** ** Notions used in the statements *)

(** The fields no built-in and no launch touches. *)
Definition same_session (st st' : shell) : Prop :=
  histlist st' = histlist st ∧ count_commands st' = count_commands st.






(** ** Sample inputs *)

(** A line as [fgets] stores it, newline included. *)
Definition ln (s : string) : option (list ascii) := Some (cs s ++ [LF]).

(** A process environment in which every child is still running and
    [fork] gives the parent [child]. *)
Definition quiet (child : Z) : world :=
  {| getuid := 1000; waitpid_nohang := λ _, WaitNone; fork := ForkParent child;
     waitpid_fg := WExited 0; execvp := None |}.

(** As [quiet], but process [done] has exited with status 0. *)
Definition exited (done child : Z) : world :=
  {| getuid := 1000;
     waitpid_nohang := λ p, if bool_decide (p = done) then WaitChanged (WExited 0) else WaitNone;
     fork := ForkParent child; waitpid_fg := WExited 0; execvp := None |}.

(** The shell after [sleep 5 &] (process 100) and [sleep 1 &]
    (process 101). *)
Definition two_jobs : shell :=
  {| histlist := [];
     jobheap := <[1%nat := {| pid := 101; cmdbuf := cs "sleep 1"; next := None |}]>
               (<[0%nat := {| pid := 100; cmdbuf := cs "sleep 5"; next := Some 1%nat |}]> ∅);
     joblist := Some 0%nat; count_commands := 3; environ := [] |}.

(** ** The line as the specification reads it *)

(** The tokens of a line: its maximal runs of bytes that are not white
    space. *)
Fixpoint words (s : list ascii) : list (list ascii) :=
  match s with
  | [] => []
  | c :: s' =>
      if is_ws c then words s'
      else
        match s' with
        | c' :: _ =>
            if is_ws c' then [c] :: words s'
            else
              match words s' with
              | w :: ws => (c :: w) :: ws
              | [] => [[c]]
              end
        | [] => [[c]]
        end
  end.

(** The arguments of a line that is not a history reference: a line
    that starts with a built-in is one opaque argument, any other line
    is split into its tokens. *)
Definition arguments (line : list ascii) : list (list ascii) :=
  match find_internal (line ++ [NUL]) with
  | Some _ => [line]
  | None => words line
  end.

(** The bytes [strcspn] runs over: neither white space nor the
    terminator. *)
Definition nonws (c : ascii) : bool := negb (is_ws c) && negb (is_nul c).

Definition is_amp (c : ascii) : bool := bool_decide (c = "&"%char).

(** The text of [w] before its first ['&']. *)
Definition before_amp (w : list ascii) : list ascii :=
  take (span (λ c, negb (is_amp c)) w) w.

(** [w] without its trailing white space. *)
Definition rstrip (w : list ascii) : list ascii :=
  reverse (drop (span is_ws (reverse w)) (reverse w)).

(** The C strings an argument vector points to. *)
Definition argv_text (r : Input) : option (list (option (list ascii))) :=
  fmap (M := list) (fmap (M := option) cstr) <$> cmdvec r.

(** How [parse_inbuf] lays tokens out in the buffer: white space, then
    the token, then a terminator. *)
Definition render (segs : list (list ascii * list ascii)) : list ascii :=
  concat ((λ gw, gw.1 ++ gw.2 ++ [NUL]) <$> segs).

Fixpoint offsets (base : nat) (segs : list (list ascii * list ascii)) : list nat :=
  match segs with
  | [] => []
  | gw :: segs' =>
      (base + length gw.1)%nat
        :: offsets (base + length gw.1 + length gw.2 + 1)%nat segs'
  end.

(** ** Decimal numerals *)

(** The character of the digit [d]. *)
Definition digit_char (d : N) : ascii := ascii_of_N (48 + d).

(** The number a list of decimal digits writes, most significant digit
    first. *)
Definition decimal (ds : list N) : N := fold_left (λ a d, a * 10 + d) ds 0.

(** The history after [ls], [echo hi] and [pwd]. *)
Definition three_commands : list Input :=
  Eval vm_compute in
    match main_loop 8192 [(quiet 100, ln "ls"); (quiet 101, ln "echo hi");
                          (quiet 102, ln "pwd")] (shell_init []) with
    | Some (_, Continue st) => histlist st
    | _ => []
    end.

(** A process environment whose [fork] returns 0: the shell is the
    child, and [execvp] fails in it. *)
Definition in_child : world :=
  {| getuid := 1000; waitpid_nohang := λ _, WaitNone; fork := ForkChild;
     waitpid_fg := WExited 0; execvp := Some (cs "Bad address") |}.

(** ** Well-formed job tables *)

(** [l] lists the addresses of the nodes reached from the pointer [p],
    up to the null pointer that ends the list. *)
Fixpoint is_joblist (h : gmap nat Job) (p : option nat) (l : list nat) : Prop :=
  match l with
  | [] => p = None
  | a :: l' => p = Some a ∧ ∃ j, h !! a = Some j ∧ is_joblist h (next j) l'
  end.

(** [waitpid] reports that the process of node [a] has exited. *)
Definition job_exited (w : world) (h : gmap nat Job) (a : nat) : Prop :=
  ∃ j code, h !! a = Some j ∧ waitpid_nohang w (pid j) = WaitChanged (WExited code).

(** ** Further notions *)

(** The keyword [parse_inbuf] compares the start of the line with, for
    each function an [internal] pointer can hold. *)
Definition keyword (f : handler) : string :=
  match f with
  | h_echo => "echo"
  | h_exit => "exit"
  | h_help => "help"
  | h_history => "history"
  | h_jobs => "jobs"
  | h_set => "set"
  end.

(** The separators [builtin_echo] looks for. *)
Definition is_sp_tab (c : ascii) : bool :=
  bool_decide (c = " "%char ∨ c = "009"%char).

(** The number of lines of a session that [main] does not take for
    blank. *)
Fixpoint nonblank_count (inputs : list (world * option (list ascii))) : N :=
  match inputs with
  | [] => 0
  | (_, Some line) :: rest =>
      (if blank_line line then 0 else 1) + nonblank_count rest
  | (_, None) :: rest => nonblank_count rest
  end.

(** The event is the [End] line of the sweep. *)
Definition is_end (e : event) : bool :=
  match e with EvEnd _ _ _ _ => true | _ => false end.


(** The event is a call that starts or replaces a process, or the
    [Begin] line that follows one. *)
Definition starts_process (e : event) : bool :=
  match e with
  | EvFork | EvBegin _ _ _ | EvExecvp _ _ => true
  | _ => false
  end.

(** No event of the trace is of that kind. *)
Definition no_process (ev : list event) : Prop :=
  Forall (λ e, starts_process e = false) ev.

(** * Properties *)

(** ** The shape of one iteration *)

Lemma after_Some ev r tr o :
  after ev r = Some (tr, o) ↔ ∃ tr', r = Some (tr', o) ∧ tr = ev ++ tr'.
Proof.
  unfold after. destruct r as [[tr' o']|]; split.
  - intros [= <- <-]. eauto.
  - intros (? & [= <- <-] & ->). done.
  - done.
  - intros (? & ? & _). done.
Qed.

Lemma after_nil r : after [] r = r.
Proof. by destruct r as [[??]|]. Qed.

Lemma after_app ev1 ev2 r : after ev1 (after ev2 r) = after (ev1 ++ ev2) r.
Proof. destruct r as [[??]|]; simpl; [|done]. by rewrite app_assoc. Qed.

Lemma call_internal_session f st arg ev o st' :
  call_internal f st arg = Some (ev, o) →
  outcome_state o = Some st' → same_session st st'.
Proof.
  unfold same_session. intros H Ho. destruct f; simpl in H.
  - destruct arg as [line|]; simplify_eq/=. done.
  - destruct arg as [line|]; [simpl in H|done].
    destruct (builtin_exit line) as [[]|]; simplify_eq/=; done.
  - simplify_eq/=. done.
  - destruct (builtin_history _); simplify_eq/=. done.
  - destruct (builtin_jobs _ _); simplify_eq/=. done.
  - destruct arg as [line|]; [simpl in H|done].
    destruct (builtin_set _ line) as [[ev' env']|]; simplify_eq/=. done.
Qed.

Lemma launch_session w st d b ev o st' :
  launch w st d b = Some (ev, o) →
  outcome_state o = Some st' → same_session st st'.
Proof.
  unfold launch. intros H Ho. apply after_Some in H as (tr' & H & ->).
  destruct (fork w).
  - destruct (internal d).
    + destruct (call_internal _ _ _) as [[ev1 o1]|] eqn:Hc; simplify_eq/=.
      destruct (outcome_state o1) as [st1|] eqn:Ho1; simplify_eq/=.
      eapply call_internal_session; eauto.
    + simplify_option_eq. apply after_Some in H as (tr'' & H & ->).
      destruct (execvp w); simplify_eq/=. done.
  - simplify_eq/=. done.
  - destruct (background d).
    + unfold job_insert in H. simplify_option_eq.
      repeat case_match; simplify_option_eq; done.
    + simplify_eq/=. done.
Qed.

Lemma dispatch_session w st d b ev o st' :
  dispatch w st d b = Some (ev, o) →
  outcome_state o = Some st' → same_session st st'.
Proof.
  unfold dispatch. intros H Ho.
  destruct (internal d) as [f|] eqn:Hi; [destruct (background d) eqn:Hb|];
    try (eapply launch_session; eauto; fail).
  simplify_option_eq; eapply call_internal_session; eauto.
Qed.

Section Iteration.

Variable BUFSIZ : N.

(** What an iteration that read a line did, step by step. *)
Lemma main_iter_line w st line tr o :
  main_iter BUFSIZ w st (Some line) = Some (tr, o) →
  ∃ evs h jl,
    sweep w st = Some (evs, h, jl) ∧
    let st1 := with_jobs st h jl in
    if blank_line line then
      tr = [prompt w st; EvFgets (Some line)] ++ evs ∧ o = Continue st1
    else
      ∃ hl evp ret b',
        hist_append BUFSIZ (histlist st) = Some hl ∧
        parse_inbuf hl (line ++ [NUL]) = Some (evp, ret, b') ∧
        let st2 := with_hist (with_count st1 ((count_commands st + 1) mod ULONG_MOD)) hl in
        match ret with
        | None =>
            tr = [prompt w st; EvFgets (Some line)] ++ evs ++ evp ∧ o = Continue st2
        | Some d =>
            ∃ evd,
              dispatch w (with_hist st2 (hist_store hl d)) d b' = Some (evd, o) ∧
              tr = [prompt w st; EvFgets (Some line)] ++ evs ++ evp ++ evd
        end.
Proof.
  unfold main_iter. intros H.
  apply after_Some in H as (tr1 & H & ->).
  destruct (sweep w st) as [[[evs h] jl]|] eqn:Hs; [|done].
  simpl in H. apply after_Some in H as (tr2 & H & ->).
  exists evs, h, jl. split; [done|]. simpl.
  destruct (blank_line line).
  { simplify_eq. by rewrite app_nil_r. }
  destruct (hist_append BUFSIZ (histlist st)) as [hl|] eqn:Hh; [|done].
  simpl in H.
  destruct (parse_inbuf hl (line ++ [NUL])) as [[[evp ret] b']|] eqn:Hp; [|done].
  simpl in H. apply after_Some in H as (tr3 & H & ->).
  exists hl, evp, ret, b'. split; [done|]. split; [done|].
  destruct ret as [d|].
  - exists tr3. done.
  - simplify_eq. by rewrite app_nil_r.
Qed.

(** The history and the counter an iteration leaves. *)
Lemma main_iter_session w st line tr o st' :
  main_iter BUFSIZ w st (Some line) = Some (tr, o) →
  outcome_state o = Some st' →
  if blank_line line then same_session st st'
  else
    count_commands st' = (count_commands st + 1) mod ULONG_MOD ∧
    ∃ hl evp ret b',
      hist_append BUFSIZ (histlist st) = Some hl ∧
      parse_inbuf hl (line ++ [NUL]) = Some (evp, ret, b') ∧
      histlist st' = match ret with None => hl | Some d => hist_store hl d end.
Proof.
  intros H Ho. apply main_iter_line in H as (evs & h & jl & Hs & H).
  simpl in H. destruct (blank_line line).
  { destruct H as [-> ->]. simplify_eq/=. done. }
  destruct H as (hl & evp & ret & b' & Hh & Hp & H).
  destruct ret as [d|].
  - destruct H as (evd & Hd & ->).
    eapply dispatch_session in Hd as [H1 H2]; [|done].
    split; [by rewrite H2|]. exists hl, evp, (Some d), b'. by rewrite H1.
  - destruct H as [-> ->]. simplify_eq/=. split; [done|].
    by exists hl, evp, None, b'.
Qed.

End Iteration.

(** ** The sweep comes after the read (C4) *)













(** ** The command counter (C6) *)

(** [main] takes a line for blank when only white space comes before
    its terminator. *)
Lemma blank_line_spec line :
  blank_line line = forallb is_ws (cstr (line ++ [NUL])).
Proof.
  unfold blank_line, strspn_ws, cstr, strlen.
  induction line as [|c line IH]; [done|]. simpl.
  destruct (is_ws c) eqn:Hc.
  - assert (is_nul c = false) as -> by (by destruct c as [[] [] [] [] [] [] [] []]).
    simpl. rewrite Hc. simpl. exact IH.
  - unfold peek. simpl. destruct (is_nul c); simpl; [done|by rewrite Hc].
Qed.

(** C6, as amended: the counter is incremented exactly for the
    non-blank lines, whether or not their parse succeeds; a blank line
    leaves it unchanged. *)
Theorem count_commands_nonblank BUFSIZ w st line tr o st' :
  main_iter BUFSIZ w st (Some line) = Some (tr, o) →
  outcome_state o = Some st' →
  count_commands st' =
    if forallb is_ws (cstr (line ++ [NUL])) then count_commands st
    else (count_commands st + 1) mod ULONG_MOD.
Proof.
  intros H Ho. rewrite <- blank_line_spec.
  pose proof (main_iter_session _ _ _ _ _ _ _ H Ho) as Hs.
  destruct (blank_line line); [apply Hs|apply Hs].
Qed.

Lemma count_commands_nonblank_witness :
  ∃ tr st',
    main_iter 8192 (quiet 100) (shell_init []) (ln "ls -l") = Some (tr, Continue st') ∧
    count_commands st' = 2.
Proof.
  eexists _, _. split; [vm_compute; reflexivity|].
  rewrite (count_commands_nonblank 8192 (quiet 100) (shell_init []) (cs "ls -l" ++ [LF])
             _ _ _ ltac:(vm_compute; reflexivity) eq_refl).
  vm_compute; reflexivity.
Defined.

(** C6 as stated fails: the parse of [!5] fails on an empty history,
    and the counter goes from 1 to 2. *)
Lemma count_commands_counterexample :
  ∃ tr st' hl ev b',
    main_iter 8192 (quiet 100) (shell_init []) (ln "!5") = Some (tr, Continue st') ∧
    hist_append 8192 (histlist (shell_init [])) = Some hl ∧
    parse_inbuf hl (cs "!5" ++ [LF; NUL]) = Some (ev, None, b') ∧
    count_commands (shell_init []) = 1 ∧
    count_commands st' = 2.
Proof.
  eexists _, _, _, _, _. repeat split; vm_compute; reflexivity.
Qed.

(** ** The history list *)

Lemma hist_store_snoc old n d :
  hist_store (old ++ [n]) d =
    old ++ [{| cmdvec := cmdvec d; internal := internal d;
               background := background d; historical := historical n |}].
Proof.
  unfold hist_store. rewrite length_app. simpl.
  replace (length old + 1 - 1)%nat with (length old + 0)%nat by lia.
  by rewrite alter_app_r.
Qed.

Lemma hist_store_length hl d : length (hist_store hl d) = length hl.
Proof. unfold hist_store. apply length_alter. Qed.

Section History.

Variable BUFSIZ : N.

(** The node is linked at the tail; the head goes when the list
    already holds [BUFSIZ] nodes or more. *)
Lemma hist_append_Some hl0 hl :
  hist_append BUFSIZ hl0 = Some hl →
  hl = (if decide (hl0 ≠ [] ∧ BUFSIZ ≤ N.of_nat (length hl0) mod UINT_MOD)
        then drop 1 hl0 else hl0) ++ [Input_zero].
Proof.
  unfold hist_append. destruct hl0 as [|h0 tl]; intros H.
  - assert (hl = [Input_zero]) as -> by congruence.
    rewrite decide_False; [done|]. by intros [? _].
  - destruct (N.leb_spec BUFSIZ (N.of_nat (length (h0 :: tl)) mod UINT_MOD)).
    + rewrite decide_True by done. by destruct tl; inversion H.
    + rewrite decide_False by (intros [_ ?]; lia). by simplify_eq.
Qed.

Hypothesis BUFSIZ_pos : 0 < BUFSIZ.
Hypothesis BUFSIZ_uint : BUFSIZ < UINT_MOD.

Lemma hist_append_bounded hl0 hl :
  N.of_nat (length hl0) ≤ BUFSIZ →
  hist_append BUFSIZ hl0 = Some hl →
  N.of_nat (length hl) ≤ BUFSIZ ∧
  hl = (if decide (N.of_nat (length hl0) = BUFSIZ) then drop 1 hl0 else hl0)
         ++ [Input_zero].
Proof.
  intros Hlen H. apply hist_append_Some in H.
  rewrite N.mod_small in H by lia.
  destruct (decide (N.of_nat (length hl0) = BUFSIZ)) as [Heq|Hne].
  - rewrite decide_True in H.
    + subst hl. rewrite length_app, length_drop. simpl. split; [|done].
      destruct hl0; simpl in *; lia.
    + split; [|lia]. intros ->. simpl in Heq. lia.
  - rewrite decide_False in H by (intros [_ ?]; lia).
    subst hl. rewrite length_app. simpl. split; [lia|done].
Qed.

(** An iteration keeps the history within [BUFSIZ] nodes. *)
Lemma main_iter_bounded w st input tr o st' :
  N.of_nat (length (histlist st)) ≤ BUFSIZ →
  main_iter BUFSIZ w st input = Some (tr, o) →
  outcome_state o = Some st' →
  N.of_nat (length (histlist st')) ≤ BUFSIZ.
Proof.
  intros Hlen H Ho. destruct input as [line|].
  - pose proof (main_iter_session _ _ _ _ _ _ _ H Ho) as Hs.
    destruct (blank_line line).
    + destruct Hs as [-> _]. done.
    + destruct Hs as (_ & hl & evp & ret & b' & Hh & _ & ->).
      apply hist_append_bounded in Hh as [Hb _]; [|done].
      destruct ret; [by rewrite hist_store_length|done].
  - unfold main_iter in H. simplify_eq/=. done.
Qed.

Lemma main_loop_bounded inputs st tr o st' :
  N.of_nat (length (histlist st)) ≤ BUFSIZ →
  main_loop BUFSIZ inputs st = Some (tr, o) →
  outcome_state o = Some st' →
  N.of_nat (length (histlist st')) ≤ BUFSIZ.
Proof.
  revert st tr. induction inputs as [|[w input] inputs IH]; intros st tr Hlen H Ho.
  - simpl in H. simplify_eq/=. done.
  - simpl in H.
    destruct (main_iter BUFSIZ w st input) as [[ev o1]|] eqn:Hi; [simpl in H|done].
    destruct o1 as [st1| |].
    + apply after_Some in H as (tr' & H & ->).
      eapply (IH st1); [by eapply main_iter_bounded|done|done].
    + simplify_eq. by eapply main_iter_bounded.
    + by simplify_eq.
Qed.

End History.

(** C7: whatever lines the shell has processed since it started, the
    history holds at most [BUFSIZ] entries, before and after the next
    non-blank line; that line adds one entry at the tail, and when the
    history is full exactly one entry, the oldest, is dropped first. *)
Theorem history_bounded_fifo BUFSIZ inputs env tr st w line tr' o st' :
  0 < BUFSIZ → BUFSIZ < UINT_MOD →
  main_loop BUFSIZ inputs (shell_init env) = Some (tr, Continue st) →
  blank_line line = false →
  main_iter BUFSIZ w st (Some line) = Some (tr', o) →
  outcome_state o = Some st' →
  N.of_nat (length (histlist st)) ≤ BUFSIZ ∧
  N.of_nat (length (histlist st')) ≤ BUFSIZ ∧
  ∃ e, histlist st' =
         (if decide (N.of_nat (length (histlist st)) = BUFSIZ)
          then drop 1 (histlist st) else histlist st) ++ [e].
Proof.
  intros Hpos Huint Hrun Hnb Hit Ho.
  assert (Hlen : N.of_nat (length (histlist st)) ≤ BUFSIZ).
  { eapply (main_loop_bounded BUFSIZ Hpos Huint inputs (shell_init env)); [|done..].
    simpl. lia. }
  split; [done|]. split; [by eapply main_iter_bounded|].
  pose proof (main_iter_session _ _ _ _ _ _ _ Hit Ho) as Hs. rewrite Hnb in Hs.
  destruct Hs as (_ & hl & evp & ret & b' & Hh & _ & ->).
  apply hist_append_bounded in Hh as [_ ->]; [|done..].
  destruct ret as [d|]; [|by eexists].
  rewrite hist_store_snoc. by eexists.
Qed.

Lemma history_bounded_fifo_witness :
  ∃ tr st tr' st',
    main_loop 256 (replicate 256 (quiet 100, ln "ls")) (shell_init []) = Some (tr, Continue st) ∧
    main_iter 256 (quiet 100) st (ln "pwd") = Some (tr', Continue st') ∧
    length (histlist st) = 256%nat ∧
    (N.of_nat (length (histlist st)) ≤ 256 ∧
     N.of_nat (length (histlist st')) ≤ 256 ∧
     ∃ e, histlist st' =
            (if decide (N.of_nat (length (histlist st)) = 256)
             then drop 1 (histlist st) else histlist st) ++ [e]).
Proof.
  eexists _, _, _, _.
  split; [vm_compute; reflexivity|]. split; [vm_compute; reflexivity|].
  split; [vm_compute; reflexivity|].
  eapply (history_bounded_fifo 256 (replicate 256 (quiet 100, ln "ls")) []
            _ _ (quiet 100) (cs "pwd" ++ [LF]) _ (Continue _)).
  - reflexivity.
  - reflexivity.
  - vm_compute; reflexivity.
  - vm_compute; reflexivity.
  - vm_compute; reflexivity.
  - reflexivity.
Defined.

(** ** C string primitives *)

Lemma is_ws_not_nul c : is_ws c = true → is_nul c = false.
Proof. by destruct c as [[] [] [] [] [] [] [] []]. Qed.

Lemma is_nul_true c : is_nul c = true ↔ c = NUL.
Proof. unfold is_nul. by rewrite bool_decide_eq_true. Qed.

Lemma is_nul_false c : is_nul c = false ↔ c ≠ NUL.
Proof. unfold is_nul. by rewrite bool_decide_eq_false. Qed.

Lemma peek_app_r pre x k : peek (pre ++ x) (length pre + k) = peek x k.
Proof. unfold peek. by rewrite lookup_app_r, Nat.add_comm, Nat.add_sub by lia. Qed.

Lemma peek_app_r0 pre x : peek (pre ++ x) (length pre) = peek x 0.
Proof. by rewrite <- (Nat.add_0_r (length pre)), peek_app_r. Qed.

Lemma poke_app_r pre x k c : poke (pre ++ x) (length pre + k) c = pre ++ poke x k c.
Proof. unfold poke. apply insert_app_r. Qed.

Lemma span_app f g x :
  Forall (λ c, f c = true) g → span f (g ++ x) = (length g + span f x)%nat.
Proof.
  induction 1 as [|c g Hc _ IH]; [done|]. simpl. by rewrite Hc, IH.
Qed.

Lemma span_all f g : Forall (λ c, f c = true) g → span f g = length g.
Proof.
  intros H. rewrite <- (app_nil_r g) at 1. rewrite span_app by done. simpl. lia.
Qed.

Lemma span_stop f c x : f c = false → span f (c :: x) = 0%nat.
Proof. simpl. by intros ->. Qed.

Lemma span_take f s : Forall (λ c, f c = true) (take (span f s) s).
Proof.
  induction s as [|c s IH]; simpl; [constructor|].
  destruct (f c) eqn:Hc; simpl; by constructor.
Qed.

Lemma span_drop f s c x : drop (span f s) s = c :: x → f c = false.
Proof.
  induction s as [|c' s IH]; simpl; [done|].
  destruct (f c') eqn:Hc; simpl; [done|]. by intros [= -> _].
Qed.

Lemma span_le f s : (span f s ≤ length s)%nat.
Proof. induction s as [|c s IH]; simpl; [lia|]. destruct (f c); simpl; lia. Qed.

(** The C string at the start of [w ++ NUL :: x]. *)
Lemma cstr_app_nul w x : NUL ∉ w → cstr (w ++ NUL :: x) = w.
Proof.
  intros Hw. unfold cstr, strlen. rewrite span_app.
  - rewrite span_stop by done. rewrite Nat.add_0_r. by rewrite take_app_length.
  - apply Forall_forall. intros c Hc. apply negb_true_iff, is_nul_false.
    by intros ->.
Qed.

Lemma strlen_app_nul w x : NUL ∉ w → strlen (w ++ NUL :: x) = length w.
Proof.
  intros Hw. unfold strlen. rewrite span_app.
  - rewrite span_stop by done. lia.
  - apply Forall_forall. intros c Hc. apply negb_true_iff, is_nul_false.
    by intros ->.
Qed.

(** [strchr] finds the first [c] of a string, if it has one. *)
Lemma strchr_app_nul w x c :
  c ≠ NUL → NUL ∉ w →
  strchr (w ++ NUL :: x) c =
    if bool_decide (c ∈ w) then Some (span (λ a, negb (bool_decide (a = c))) w) else None.
Proof.
  intros Hc Hw. induction w as [|a w IH]; cbn [app strchr].
  - rewrite (bool_decide_eq_false_2 (NUL = c)) by congruence.
    rewrite (bool_decide_eq_false_2 (c ∈ [])) by (by intros ?%elem_of_nil). done.
  - apply not_elem_of_cons in Hw as [Ha Hw].
    destruct (decide (a = c)) as [->|Hne].
    + cbn [span]. rewrite (bool_decide_eq_true_2 (c = c)) by done.
      by rewrite bool_decide_eq_true_2 by (by left).
    + cbn [span]. rewrite (bool_decide_eq_false_2 (a = c)) by done. cbn [negb].
      assert (is_nul a = false) as -> by (apply is_nul_false; congruence).
      rewrite IH by done.
      destruct (decide (c ∈ w)).
      * rewrite (bool_decide_eq_true_2 (c ∈ w)) by done.
        by rewrite bool_decide_eq_true_2 by (by right).
      * rewrite (bool_decide_eq_false_2 (c ∈ w)) by done.
        rewrite bool_decide_eq_false_2; [done|].
        intros [?|?]%elem_of_cons; congruence.
Qed.

Lemma span_split (f : ascii → bool) (s : list ascii) :
  ∃ g r, s = g ++ r ∧ Forall (λ c, f c = true) g ∧
         match r with [] => True | c :: _ => f c = false end.
Proof.
  exists (take (span f s) s), (drop (span f s) s).
  split; [by rewrite take_drop|]. split; [apply span_take|].
  destruct (drop _ s) eqn:Hd; [done|]. by eapply span_drop.
Qed.

Lemma span_app_stop (f : ascii → bool) g c x :
  Forall (λ c, f c = true) g → f c = false → span f (g ++ c :: x) = length g.
Proof. intros Hg Hc. rewrite span_app, span_stop by done. lia. Qed.

(** ** The tokens of a line *)

Lemma words_ws g s : Forall (λ c, is_ws c = true) g → words (g ++ s) = words s.
Proof. induction 1 as [|c g Hc _ IH]; [done|]. simpl. by rewrite Hc. Qed.

Lemma words_token w s :
  w ≠ [] → Forall (λ c, is_ws c = false) w →
  match s with [] => True | c :: _ => is_ws c = true end →
  words (w ++ s) = w :: words s.
Proof.
  intros Hne Hw Hs. induction Hw as [|c w Hc Hw IH]; [done|].
  cbn [app words]. rewrite Hc.
  destruct w as [|c2 w].
  - simpl. destruct s as [|c' s]; [done|]. by rewrite Hs.
  - cbn [app]. inversion Hw as [|?? Hc2 _]; subst. rewrite Hc2.
    cbn [app] in IH. by rewrite IH.
Qed.

Lemma words_nil g : Forall (λ c, is_ws c = true) g → words g = [].
Proof. intros H. rewrite <- (app_nil_r g). by rewrite words_ws. Qed.

(** Each token is a non-empty run of bytes of the line, none of them
    white space. *)
Lemma words_Forall s :
  Forall (λ w, w ≠ [] ∧ Forall (λ c, is_ws c = false ∧ c ∈ s) w) (words s).
Proof.
  induction s as [|c s IH]; [constructor|].
  assert (IH' : Forall (λ w, w ≠ [] ∧ Forall (λ a, is_ws a = false ∧ a ∈ c :: s) w) (words s)).
  { eapply Forall_impl; [exact IH|]. intros w [? Hw]. split; [done|].
    eapply Forall_impl; [exact Hw|]. intros a [? ?]. split; [done|by right]. }
  clear IH. cbn [words]. destruct (is_ws c) eqn:Hc; [done|].
  assert (Hc1 : Forall (λ a, is_ws a = false ∧ a ∈ c :: s) [c]).
  { repeat constructor; done. }
  destruct s as [|c' s]; [by repeat constructor|].
  destruct (is_ws c'); [by constructor|].
  destruct (words (c' :: s)) as [|w ws]; [by repeat constructor|].
  inversion IH' as [|?? [? Hw] Hws]; subst.
  constructor; [|done]. split; [done|]. constructor; [|done]. split; [done|by left].
Qed.

Lemma render_cons g w segs : render ((g, w) :: segs) = g ++ w ++ NUL :: render segs.
Proof. unfold render. simpl. by rewrite <- !app_assoc. Qed.

Lemma render_app segs1 segs2 : render (segs1 ++ segs2) = render segs1 ++ render segs2.
Proof. unfold render. by rewrite fmap_app, concat_app. Qed.

Lemma peek_at pre c x : peek (pre ++ c :: x) (length pre) = c.
Proof. unfold peek. by rewrite list_lookup_middle. Qed.

Lemma poke_at pre c x c' : poke (pre ++ c :: x) (length pre) c' = pre ++ c' :: x.
Proof.
  unfold poke. rewrite <- (Nat.add_0_r (length pre)). by rewrite insert_app_r.
Qed.

(** The four ways one pass through the loop ends. *)
Lemma tokenize_blank fuel b p cl :
  peek b (p + strspn_ws (drop p b)) = NUL →
  tokenize (S fuel) b p cl = Some (b, cl).
Proof. intros H. cbn [tokenize]. by rewrite H. Qed.

Lemma tokenize_last fuel b p cl p1 p2 :
  p1 = (p + strspn_ws (drop p b))%nat → peek b p1 ≠ NUL →
  p2 = (p1 + strcspn_ws (drop p1 b))%nat → peek b p2 = NUL →
  tokenize (S fuel) b p cl = Some (b, cl ++ [p1]).
Proof.
  intros -> H1 -> H2. cbn [tokenize].
  apply is_nul_false in H1. by rewrite H1, H2.
Qed.

Lemma tokenize_last_ws fuel b p cl p1 p2 :
  p1 = (p + strspn_ws (drop p b))%nat → peek b p1 ≠ NUL →
  p2 = (p1 + strcspn_ws (drop p1 b))%nat → peek b p2 ≠ NUL →
  peek (poke b p2 NUL) (S p2) = NUL →
  tokenize (S fuel) b p cl = Some (poke b p2 NUL, cl ++ [p1]).
Proof.
  intros -> H1 -> H2 H3. cbn [tokenize].
  apply is_nul_false in H1, H2. by rewrite H1, H2, H3.
Qed.

Lemma tokenize_more fuel b p cl p1 p2 :
  p1 = (p + strspn_ws (drop p b))%nat → peek b p1 ≠ NUL →
  p2 = (p1 + strcspn_ws (drop p1 b))%nat → peek b p2 ≠ NUL →
  peek (poke b p2 NUL) (S p2) ≠ NUL →
  tokenize (S fuel) b p cl = tokenize fuel (poke b p2 NUL) (S p2) (cl ++ [p1]).
Proof.
  intros -> H1 -> H2 H3. cbn [tokenize].
  apply is_nul_false in H1, H2, H3. by rewrite H1, H2, H3.
Qed.

(** The loop of [parse_inbuf] stores the offset of every token and
    ends each token in the buffer. *)
Lemma tokenize_spec fuel s pre cl :
  NUL ∉ s → (length s < fuel)%nat →
  ∃ segs tail,
    tokenize fuel (pre ++ s ++ [NUL]) (length pre) cl
      = Some (pre ++ render segs ++ tail, cl ++ offsets (length pre) segs) ∧
    segs.*2 = words s ∧
    Forall (λ gw, Forall (λ c, is_ws c = true) gw.1) segs.
Proof.
  revert s pre cl. induction fuel as [|fuel IH]; intros s pre cl Hnul Hlen; [lia|].
  destruct (span_split is_ws s) as (g & r1 & -> & Hg & Hr1).
  destruct r1 as [|c r2].
  { (* only white space is left *)
    exists [], (g ++ [NUL]). rewrite app_nil_r, words_nil by done.
    split; [|by split]. rewrite tokenize_blank.
    - simpl. by rewrite app_nil_r.
    - rewrite drop_app_length. unfold strspn_ws. rewrite span_app_stop by done.
      rewrite <- length_app, app_assoc. apply peek_at. }
  assert (Hcn : c ≠ NUL) by (intros ->; apply Hnul; set_solver).
  destruct (span_split nonws (c :: r2)) as (w & r3 & Hw & Hwf & Hr3).
  assert (Hwne : w ≠ []).
  { intros ->. simpl in Hw. subst r3. unfold nonws in Hr3.
    rewrite Hr1 in Hr3. simpl in Hr3. apply is_nul_false in Hcn. by rewrite Hcn in Hr3. }
  assert (Hw_ws : Forall (λ c, is_ws c = false) w).
  { eapply Forall_impl; [exact Hwf|]. intros a Ha. unfold nonws in Ha.
    apply andb_true_iff in Ha as [Ha _]. by apply negb_true_iff in Ha. }
  rewrite Hw in *. clear Hw c r2 Hr1 Hcn.
  assert (Hp1 : (length (pre ++ g) = length pre
                   + strspn_ws (drop (length pre) (pre ++ (g ++ w ++ r3) ++ [NUL])))%nat).
  { rewrite drop_app_length. unfold strspn_ws.
    destruct w as [|c w]; [done|]. apply Forall_cons in Hw_ws as [Hc _].
    rewrite <- !app_assoc. cbn [app]. rewrite span_app_stop by done.
    by rewrite length_app. }
  assert (Hb : ∀ x, pre ++ (g ++ w ++ r3) ++ x = (pre ++ g) ++ w ++ r3 ++ x).
  { intros x. by rewrite <- !app_assoc. }
  assert (Hpk1 : peek (pre ++ (g ++ w ++ r3) ++ [NUL]) (length (pre ++ g)) ≠ NUL).
  { rewrite Hb. destruct w as [|c w]; [done|]. cbn [app]. rewrite peek_at.
    intros ->. apply Hnul. set_solver. }
  assert (Hp2 : (length ((pre ++ g) ++ w) = length (pre ++ g)
                   + strcspn_ws (drop (length (pre ++ g)) (pre ++ (g ++ w ++ r3) ++ [NUL])))%nat).
  { rewrite Hb, drop_app_length. unfold strcspn_ws. fold nonws.
    rewrite (length_app _ w). f_equal.
    destruct r3 as [|c3 r4].
    - cbn [app]. by rewrite span_app_stop.
    - cbn [app]. by rewrite span_app_stop. }
  destruct r3 as [|c3 r4].
  { (* the token ends at the terminator of the line *)
    exists [(g, w)], []. rewrite words_ws, words_token, words_nil by done.
    split; [|by repeat constructor].
    erewrite tokenize_last; [|exact Hp1|exact Hpk1|exact Hp2|].
    - rewrite render_cons. simpl. rewrite !app_nil_r, length_app, <- !app_assoc. done.
    - rewrite Hb, app_nil_l, app_assoc. apply peek_at. }
  assert (Hc3n : c3 ≠ NUL) by (intros ->; apply Hnul; set_solver).
  assert (Hc3 : is_ws c3 = true).
  { unfold nonws in Hr3. apply andb_false_iff in Hr3 as [H|H].
    - by apply negb_false_iff in H.
    - apply negb_false_iff, is_nul_true in H. done. }
  assert (Hpk2 : peek (pre ++ (g ++ w ++ c3 :: r4) ++ [NUL]) (length ((pre ++ g) ++ w)) ≠ NUL).
  { rewrite Hb, app_assoc. cbn [app]. by rewrite peek_at. }
  assert (Hpoke : poke (pre ++ (g ++ w ++ c3 :: r4) ++ [NUL]) (length ((pre ++ g) ++ w)) NUL
                  = (((pre ++ g) ++ w) ++ [NUL]) ++ r4 ++ [NUL]).
  { rewrite Hb, app_assoc. cbn [app]. rewrite poke_at. by rewrite <- !app_assoc. }
  assert (HS : S (length ((pre ++ g) ++ w)) = length (((pre ++ g) ++ w) ++ [NUL])).
  { rewrite (length_app _ [NUL]). simpl. lia. }
  destruct r4 as [|c4 r5].
  { (* white space ends the token and the line *)
    exists [(g, w)], [NUL]. rewrite words_ws, words_token by done.
    rewrite (words_nil [c3]) by (by repeat constructor).
    split; [|by repeat constructor].
    erewrite tokenize_last_ws; [|exact Hp1|exact Hpk1|exact Hp2|exact Hpk2|].
    - rewrite Hpoke, render_cons. simpl. rewrite length_app, <- !app_assoc. done.
    - rewrite Hpoke, HS. cbn [app]. apply peek_at. }
  assert (Hc4n : c4 ≠ NUL) by (intros ->; apply Hnul; set_solver).
  destruct (IH (c4 :: r5) (((pre ++ g) ++ w) ++ [NUL]) (cl ++ [length (pre ++ g)]))
    as (segs & tail & Ht & Hwords & Hgaps).
  { intros H. apply Hnul. rewrite !elem_of_app, !elem_of_cons in *. tauto. }
  { rewrite !length_app in Hlen. simpl in *. lia. }
  exists ((g, w) :: segs), tail. split; [|split].
  - erewrite tokenize_more; [|exact Hp1|exact Hpk1|exact Hp2|exact Hpk2|].
    + rewrite Hpoke, HS, Ht. rewrite render_cons. cbn [offsets fst snd].
      rewrite !length_app. simpl. rewrite <- !app_assoc. simpl.
      repeat f_equal; lia.
    + rewrite Hpoke, HS. cbn [app]. by rewrite peek_at.
  - cbn [fmap list_fmap snd]. rewrite Hwords.
    rewrite words_ws by done. rewrite words_token by done.
    cbn [words]. by rewrite Hc3.
  - by constructor.
Qed.

(** ** The layout [parse_inbuf] leaves in the buffer *)

Lemma offsets_app base segs1 segs2 :
  offsets base (segs1 ++ segs2)
    = offsets base segs1 ++ offsets (base + length (render segs1)) segs2.
Proof.
  revert base. induction segs1 as [|[g w] segs1 IH]; intros base.
  - simpl. by rewrite Nat.add_0_r.
  - cbn [app offsets fst snd]. rewrite IH, render_cons. f_equal. f_equal. f_equal.
    rewrite !length_app. simpl. lia.
Qed.

Lemma offsets_length base segs : length (offsets base segs) = length segs.
Proof. revert base. induction segs as [|gw segs IH]; intros base; simpl; by rewrite ?IH. Qed.

(** Every stored offset points to its token, whatever follows the
    tokens in the buffer. *)
Lemma offsets_text pre segs x :
  Forall (λ gw, NUL ∉ gw.2) segs →
  (λ o, cstr (drop o (pre ++ render segs ++ x))) <$> offsets (length pre) segs = segs.*2.
Proof.
  intros H. revert pre. induction H as [|[g w] segs Hw _ IH]; intros pre; [done|].
  cbn [offsets fmap list_fmap fst snd]. f_equal.
  - rewrite render_cons, <- length_app, <- !app_assoc, (app_assoc pre g), drop_app_length.
    cbn [app]. by apply cstr_app_nul.
  - specialize (IH (pre ++ g ++ w ++ [NUL])).
    rewrite !length_app in IH. simpl in IH.
    rewrite render_cons. rewrite <- IH.
    replace (length pre + (length g + (length w + 1)))%nat
      with (length pre + length g + length w + 1)%nat by lia.
    apply list_fmap_ext. intros _ o _. by rewrite <- !app_assoc.
Qed.

Lemma render_snoc_nul segs gw : ∃ y, render (segs ++ [gw]) = y ++ [NUL].
Proof.
  exists (render segs ++ gw.1 ++ gw.2). destruct gw as [g w].
  rewrite render_app, render_cons. unfold render at 2. simpl. by rewrite <- !app_assoc.
Qed.

(** The walk back stops at the latest on a byte that is not white
    space. *)
Lemma back_ws_ge b amp l :
  (l < amp)%nat → is_ws (peek b l) = false → (l ≤ back_ws b amp)%nat.
Proof.
  intros Hl Hb. induction amp as [|a IH]; [lia|]. cbn [back_ws].
  destruct ((0 <? a)%nat && is_ws (peek b a)) eqn:Hc; [|lia].
  apply andb_true_iff in Hc as [_ Hc].
  destruct (decide (a = l)) as [->|]; [congruence|]. apply IH. lia.
Qed.

Lemma back_ws_lt b amp : (0 < amp)%nat → (back_ws b amp < amp)%nat.
Proof.
  induction amp as [|a IH]; [lia|]. intros _. cbn [back_ws].
  destruct ((0 <? a)%nat && is_ws (peek b a)) eqn:Hc; [|lia].
  apply andb_true_iff in Hc as [Ha%Nat.ltb_lt _]. specialize (IH Ha). lia.
Qed.

Lemma back_ws_stop pre c gs rest :
  is_ws c = false → Forall (λ a, is_ws a = true) gs →
  back_ws (pre ++ c :: gs ++ rest) (length (pre ++ c :: gs)) = length pre.
Proof.
  intros Hc Hgs. revert rest. induction gs as [|s gs IH] using rev_ind; intros rest.
  - rewrite length_app. simpl. rewrite Nat.add_1_r. cbn [back_ws].
    rewrite peek_at, Hc. by rewrite andb_false_r.
  - apply Forall_app in Hgs as [Hgs Hs]. apply Forall_inv in Hs.
    assert (Hb : pre ++ c :: (gs ++ [s]) ++ rest = (pre ++ c :: gs) ++ s :: rest).
    { by rewrite <- !app_assoc. }
    assert (Hn : length (pre ++ c :: gs ++ [s]) = S (length (pre ++ c :: gs))).
    { rewrite !length_app. simpl. rewrite length_app. simpl. lia. }
    rewrite Hn. cbn [back_ws]. rewrite Hb, peek_at, Hs.
    assert ((0 <? length (pre ++ c :: gs))%nat = true) as ->.
    { apply Nat.ltb_lt. rewrite length_app. simpl. lia. }
    cbn [andb]. rewrite <- app_assoc. apply (IH Hgs (s :: rest)).
Qed.

(** ** Trailing white space *)

Lemma rstrip_split l :
  Forall (λ a, is_ws a = true) l ∨
  ∃ x c gs, l = x ++ c :: gs ∧ is_ws c = false ∧
            Forall (λ a, is_ws a = true) gs ∧ rstrip l = x ++ [c].
Proof.
  unfold rstrip.
  destruct (span_split is_ws (reverse l)) as (g & r & Hl & Hg & Hr).
  rewrite Hl, span_app.
  2: done.
  destruct r as [|c r].
  - left. rewrite app_nil_r in Hl. apply (f_equal reverse) in Hl.
    rewrite reverse_involutive in Hl. subst l. by apply Forall_reverse.
  - right. exists (reverse r), c, (reverse g).
    apply (f_equal reverse) in Hl. rewrite reverse_involutive in Hl.
    rewrite reverse_app, reverse_cons, <- app_assoc in Hl. cbn [app] in Hl.
    split; [done|]. split; [done|]. split; [by apply Forall_reverse|].
    rewrite span_stop by done. rewrite Nat.add_0_r, drop_app_length.
    by rewrite reverse_cons.
Qed.

Lemma rstrip_nonws l :
  Forall (λ a, is_ws a = false) l → rstrip l = l.
Proof.
  intros H. unfold rstrip. destruct (reverse l) as [|c r] eqn:Hr.
  - apply (f_equal reverse) in Hr. by rewrite reverse_involutive in Hr.
  - assert (is_ws c = false) as Hc.
    { eapply Forall_forall in H; [exact H|].
      apply elem_of_reverse. rewrite Hr. by left. }
    rewrite span_stop by done. simpl. rewrite <- Hr. apply reverse_involutive.
Qed.

(** ** The end of [parse_inbuf] *)

(** Lists built with [++] and [::], reassociated to the right. *)
Ltac norm_app := repeat first [rewrite <- app_assoc | progress cbn [app]].

(** The terminator written after the walk back cuts the last argument
    after its last byte that is not white space. *)
Lemma trim_buffer pre w tail m :
  (∃ c w', w = c :: w' ∧ is_ws c = false) → (0 < m ≤ length w)%nat →
  ∃ rest,
    poke (pre ++ w ++ NUL :: tail)
         (S (back_ws (pre ++ w ++ NUL :: tail) (length pre + m))) NUL
      = pre ++ rstrip (take m w) ++ NUL :: rest.
Proof.
  intros (c0 & w' & -> & Hc0) Hm.
  destruct (rstrip_split (take m (c0 :: w'))) as [Hall|(x & c & gs & Ht & Hc & Hgs & ->)].
  { destruct m as [|m]; [lia|]. simpl in Hall. apply Forall_inv in Hall. congruence. }
  assert (Hw : c0 :: w' = x ++ c :: gs ++ drop m (c0 :: w')).
  { rewrite <- (take_drop m (c0 :: w')) at 1. rewrite Ht. by norm_app. }
  assert (Hm' : (length pre + m)%nat = length ((pre ++ x) ++ c :: gs)).
  { rewrite <- app_assoc, length_app, <- Ht, length_take. lia. }
  rewrite Hw, Hm'.
  replace (pre ++ (x ++ c :: gs ++ drop m (c0 :: w')) ++ NUL :: tail)
    with ((pre ++ x) ++ c :: gs ++ (drop m (c0 :: w') ++ NUL :: tail))
    by (by norm_app).
  rewrite back_ws_stop by done.
  destruct (gs ++ drop m (c0 :: w') ++ NUL :: tail) as [|a rest] eqn:Hrest.
  { by destruct gs, (drop m (c0 :: w')). }
  exists rest.
  replace ((pre ++ x) ++ c :: a :: rest) with (((pre ++ x) ++ [c]) ++ a :: rest)
    by (by norm_app).
  replace (S (length (pre ++ x))) with (length ((pre ++ x) ++ [c]))
    by (rewrite (length_app _ [c]); simpl; lia).
  rewrite poke_at. by norm_app.
Qed.

(** When the last token starts with ['&'] the terminator is written
    after the tokens stored before it. *)
Lemma trim_buffer_amp segs x p :
  (length (render segs) ≤ p)%nat →
  ∃ y, (if bool_decide (p = 0%nat) then render segs ++ x
        else poke (render segs ++ x) (S (back_ws (render segs ++ x) p)) NUL)
       = render segs ++ y.
Proof.
  intros Hp. case_bool_decide; [by eexists|].
  assert (Hge : (length (render segs) ≤ S (back_ws (render segs ++ x) p))%nat).
  { destruct segs as [|gw segs _] using rev_ind; [simpl; lia|].
    destruct (render_snoc_nul segs gw) as [y Hy]. rewrite Hy in *.
    rewrite length_app in *. simpl in *.
    assert (length y ≤ back_ws ((y ++ [NUL]) ++ x) p)%nat; [|lia].
    apply back_ws_ge; [lia|]. rewrite <- app_assoc. cbn [app]. by rewrite peek_at. }
  apply Nat.le_exists_sub in Hge as (d & -> & _).
  rewrite (Nat.add_comm d), poke_app_r. by eexists.
Qed.

Lemma argv_text_offsets b cl :
  fmap (M := list) (fmap (M := option) cstr)
       (fmap (M := list) (fmap (M := option) (λ o, drop o b)) (Some <$> cl))
    = Some <$> ((λ o, cstr (drop o b)) <$> cl).
Proof. induction cl as [|o cl IH]; [done|]. cbn [fmap list_fmap] in *. by rewrite IH. Qed.

Lemma before_amp_no_amp w : "&"%char ∉ w → before_amp w = w.
Proof.
  intros H. unfold before_amp. rewrite span_all; [by rewrite firstn_all|].
  apply Forall_forall. intros c Hc. apply negb_true_iff, bool_decide_eq_false.
  by intros ->.
Qed.

Lemma span_amp_0 w :
  "&"%char ∈ w →
  span (λ c, negb (is_amp c)) w = 0%nat ↔ head w = Some "&"%char.
Proof.
  intros Hin. destruct w as [|c w]; [by apply elem_of_nil in Hin|]. cbn [span head].
  unfold is_amp. case_bool_decide; simpl; [by subst|]. split; [lia|congruence].
Qed.

(** What the end of [parse_inbuf] makes of the offsets the loop
    stored: [init] are the tokens before the last, [w] is the last. *)
Lemma parse_tail_spec int init g w tail :
  Forall (λ gw, NUL ∉ gw.2) init → NUL ∉ w →
  (∃ c w', w = c :: w' ∧ is_ws c = false) →
  ∃ r b',
    parse_tail int (render init ++ g ++ w ++ NUL :: tail) (offsets 0 (init ++ [(g, w)]))
      = Some ([], Some r, b') ∧
    internal r = int ∧ historical r = false ∧
    background r = bool_decide ("&"%char ∈ w) ∧
    argv_text r = Some
      (if bool_decide (head w = Some "&"%char)
       then (Some <$> init.*2) ++ [None; None]
       else (Some <$> init.*2 ++ [rstrip (before_amp w)]) ++ [None]).
Proof.
  intros Hinit Hw Hhead.
  set (b := render init ++ g ++ w ++ NUL :: tail).
  set (p := length (render init ++ g)).
  assert (Hcl : offsets 0 (init ++ [(g, w)]) = offsets 0 init ++ [p]).
  { rewrite offsets_app. simpl. unfold p. by rewrite length_app. }
  assert (Hdrop : drop p b = w ++ NUL :: tail).
  { unfold b, p. rewrite (app_assoc _ g). apply drop_app_length. }
  assert (Htexts : ∀ y, (λ o, cstr (drop o (render init ++ y))) <$> offsets 0 init = init.*2).
  { intros y. by apply (offsets_text [] init y). }
  assert (Hlen : (length (offsets 0 init ++ [p]) - 1)%nat = length (Some <$> offsets 0 init)).
  { rewrite length_app, length_fmap. simpl. lia. }
  assert (Hcut : ∀ vec bg m, (0 < m ≤ length w)%nat →
            ∃ rest, parse_trim int b vec bg (p + m)
              = ([], Some {| cmdvec := Some (fmap (M := option)
                                (λ o, drop o (render init ++ g ++ rstrip (take m w) ++ NUL :: rest))
                                <$> vec);
                             internal := int; background := bg; historical := false |},
                 render init ++ g ++ rstrip (take m w) ++ NUL :: rest)).
  { intros vec bg m Hm. unfold parse_trim.
    rewrite bool_decide_eq_false_2 by lia.
    destruct (trim_buffer (render init ++ g) w tail m Hhead Hm) as [rest Hrest].
    exists rest. unfold b, p.
    replace (render init ++ g ++ w ++ NUL :: tail) with ((render init ++ g) ++ w ++ NUL :: tail)
      by (by norm_app).
    rewrite Hrest. by norm_app. }
  assert (Hlast : ∀ m rest, (0 < m ≤ length w)%nat →
            cstr (drop p (render init ++ g ++ rstrip (take m w) ++ NUL :: rest))
              = rstrip (take m w)).
  { intros m rest Hm. unfold p. rewrite (app_assoc _ g), drop_app_length.
    apply cstr_app_nul. intros Hin. apply Hw.
    destruct (rstrip_split (take m w)) as [Hall|(x & c & gs & Ht & _ & _ & Hr)].
    - destruct Hhead as (c & w' & -> & Hc). destruct m; [lia|].
      simpl in Hall. apply Forall_inv in Hall. congruence.
    - rewrite Hr in Hin. rewrite <- (take_drop m w), Ht.
      rewrite !elem_of_app, !elem_of_cons, ?elem_of_nil in *. tauto. }
  unfold parse_tail. rewrite Hcl, last_snoc. cbn [mbind option_bind].
  rewrite Hdrop, strchr_app_nul by done. fold b.
  destruct (decide ("&"%char ∈ w)) as [Hamp|Hamp].
  - rewrite !(bool_decide_eq_true_2 ("&"%char ∈ w)) by done.
    change (span (λ a, negb (bool_decide (a = "&"%char))) w)
      with (span (λ c, negb (is_amp c)) w).
    pose proof (span_amp_0 w Hamp) as H0.
    destruct (decide (head w = Some "&"%char)) as [Hh|Hh].
    + (* the last token starts with '&' *)
      rewrite (bool_decide_eq_true_2 (head w = _)) by done.
      apply H0 in Hh. rewrite Hh. rewrite bool_decide_eq_true_2 by done.
      rewrite Hlen, Nat.add_0_r.
      rewrite fmap_app, <- app_assoc. cbn [fmap list_fmap app].
      rewrite <- (Nat.add_0_r (length (Some <$> offsets 0 init))), insert_app_r.
      cbn [insert list_insert].
      unfold parse_trim.
      destruct (trim_buffer_amp init (g ++ w ++ NUL :: tail) p) as [y Hy].
      { unfold p. rewrite length_app. lia. }
      fold b in Hy. rewrite Hy.
      eexists _, _. split; [reflexivity|]. repeat split.
      unfold argv_text. cbn [cmdvec fmap option_fmap option_map]. f_equal.
      rewrite !fmap_app, argv_text_offsets, Htexts. done.
    + (* the text before '&' is kept *)
      rewrite (bool_decide_eq_false_2 (head w = _)) by done.
      assert (Hm : (0 < span (λ c, negb (is_amp c)) w ≤ length w)%nat).
      { split; [|apply span_le].
        assert (span (λ c, negb (is_amp c)) w ≠ 0%nat) by (intros E; by apply H0 in E).
        lia. }
      rewrite bool_decide_eq_false_2 by lia.
      destruct (Hcut ((Some <$> offsets 0 init ++ [p]) ++ [None]) true _ Hm) as [rest ->].
      eexists _, _. split; [reflexivity|]. repeat split.
      unfold argv_text. cbn [cmdvec fmap option_fmap option_map]. f_equal.
      rewrite !fmap_app, argv_text_offsets, Htexts. cbn [fmap list_fmap option_fmap option_map].
      by rewrite Hlast.
  - rewrite !(bool_decide_eq_false_2 ("&"%char ∈ w)) by done.
    rewrite (bool_decide_eq_false_2 (head w = _)).
    2: { intros Hh. apply Hamp. destruct w; simplify_eq/=. by left. }
    rewrite strlen_app_nul by done.
    assert (Hm : (0 < length w ≤ length w)%nat).
    { destruct Hhead as (c & w' & -> & _). simpl. lia. }
    destruct (Hcut ((Some <$> offsets 0 init ++ [p]) ++ [None]) false _ Hm) as [rest ->].
    eexists _, _. split; [reflexivity|]. repeat split.
    unfold argv_text. cbn [cmdvec fmap option_fmap option_map]. f_equal.
    rewrite !fmap_app, argv_text_offsets, Htexts. cbn [fmap list_fmap option_fmap option_map].
    rewrite Hlast by done. by rewrite firstn_all, before_amp_no_amp.
Qed.

(** ** parse_inbuf on a line without a history reference *)

Lemma starts_with_head name b c rest :
  cs name = c :: rest → starts_with name b = true → ∃ x, b = c :: x.
Proof.
  unfold starts_with. intros Hn H%bool_decide_eq_true. rewrite Hn in H.
  destruct b as [|c' x]; [done|]. simpl in H. injection H as -> _. by eexists.
Qed.

(** A line that starts with a built-in starts with a letter. *)
Lemma find_internal_head b f :
  find_internal b = Some f →
  ∃ c x, b = c :: x ∧ is_ws c = false ∧ c ≠ NUL ∧ c ≠ "&"%char.
Proof.
  unfold find_internal. intros H.
  repeat match type of H with
  | (if ?a && _ then _ else _) = _ =>
      let Hs := fresh "Hs" in
      destruct a eqn:Hs;
        [eapply starts_with_head in Hs as [x ->]; [|reflexivity];
         eexists _, _; split; [reflexivity|split; [by vm_compute|split; by intros [=]]]
        |cbn [andb] in H]
  end.
  done.
Qed.

Lemma parse_inbuf_args hl line init lastf :
  NUL ∉ line →
  (find_internal (line ++ [NUL]) = None → "!"%char ∉ line) →
  arguments line = init ++ [lastf] →
  ∃ r b',
    parse_inbuf hl (line ++ [NUL]) = Some ([], Some r, b') ∧
    internal r = find_internal (line ++ [NUL]) ∧
    historical r = false ∧
    background r = bool_decide ("&"%char ∈ lastf) ∧
    argv_text r = Some
      (if bool_decide (head lastf = Some "&"%char)
       then (Some <$> init) ++ [None; None]
       else (Some <$> init ++ [rstrip (before_amp lastf)]) ++ [None]).
Proof.
  intros Hnul Hexc Hargs. unfold parse_inbuf, arguments in *.
  destruct (find_internal (line ++ [NUL])) as [f|] eqn:Hf.
  - (* a built-in: the line is its own single argument *)
    destruct init as [|? [|??]]; simplify_eq/=.
    apply find_internal_head in Hf as (c & x & Hb & Hc & Hcn & _).
    destruct (parse_tail_spec (Some f) [] [] lastf []) as (r & b' & H);
      [constructor|done| |by exists r, b'].
    destruct lastf as [|c' w']; simplify_eq/=. by eexists _, _.
  - rewrite (strchr_app_nul line [] "!"%char) by done.
    rewrite bool_decide_eq_false_2 by auto.
    destruct (tokenize_spec (length (line ++ [NUL])) line [] []) as
      (segs & tail & Ht & Hwords & _); [done|rewrite length_app; simpl; lia|].
    cbn [app length] in Ht. rewrite Ht. cbn [mbind option_bind app].
    rewrite Hargs in Hwords. apply fmap_app_inv in Hwords as (segs0 & l2 & -> & Hl2 & ->).
    destruct l2 as [|[g w] [|??]]; simplify_eq/=.
    pose proof (words_Forall line) as Hall. rewrite Hargs in Hall.
    apply Forall_app in Hall as [Hall0 Hallw]. apply Forall_inv in Hallw as [Hne Hw].
    rewrite render_app, render_cons. change (render []) with (@nil ascii). norm_app.
    apply (parse_tail_spec None segs0 g w tail).
    + apply Forall_fmap in Hall0. eapply Forall_impl; [exact Hall0|].
      intros [g' w'] [_ Hw']. simpl in *. intros Hin.
      eapply Forall_forall in Hw' as [_ ?]; [|exact Hin]. done.
    + intros Hin. eapply Forall_forall in Hw as [_ ?]; [|exact Hin]. done.
    + destruct w as [|c w']; [done|]. apply Forall_inv in Hw as [? _]. by eexists _, _.
Qed.

(** ** parse_inbuf is defined on every line [main] passes to it *)

Lemma words_nil_inv s : words s = [] → Forall (λ c, is_ws c = true) s.
Proof.
  induction s as [|c s IH]; [constructor|]. cbn [words].
  destruct (is_ws c) eqn:Hc; [by constructor; auto|].
  destruct s as [|c' s]; [done|]. destruct (is_ws c'); [done|].
  by destruct (words (c' :: s)).
Qed.

Lemma hist_find_found hl cnt hr hp c :
  hist_find hl cnt hr = (hp, c) → c = hr → cnt ≠ hr → is_Some hp.
Proof.
  revert cnt. induction hl as [|h hl IH]; intros cnt H Hc Hne; simpl in H.
  - simplify_eq.
  - destruct (N.eqb_spec ((cnt + 1) mod UINT_MOD) hr) as [Heq|Hneq].
    + simplify_eq. by eexists.
    + by eapply IH.
Qed.

Lemma parse_inbuf_total hl line :
  NUL ∉ line → blank_line line = false →
  ∃ ev ret b', parse_inbuf hl (line ++ [NUL]) = Some (ev, ret, b').
Proof.
  intros Hnul Hnb.
  destruct (decide (find_internal (line ++ [NUL]) = None ∧ "!"%char ∈ line)) as [[Hf Hexc]|Hno].
  - (* a history reference *)
    unfold parse_inbuf. rewrite Hf, strchr_app_nul by done.
    rewrite bool_decide_eq_true_2 by done.
    cbv zeta. set (hr := strtoul _). set (b' := poke _ _ _).
    destruct (N.eqb_spec hr 0) as [?|H0]; [by eexists _, _, _|].
    destruct (hist_find hl 0 hr) as [hp cnt] eqn:Hfind.
    destruct (N.eqb_spec cnt hr) as [Heq|Hneq]; cbn [negb]; [|by eexists _, _, _].
    destruct (hist_find_found _ _ _ _ _ Hfind Heq) as [h ->]; [by intros <-|].
    by eexists _, _, _.
  - assert (Hargs : ∃ init lastf, arguments line = init ++ [lastf]).
    { unfold arguments. destruct (find_internal (line ++ [NUL])); [by exists [], line|].
      destruct (words line) as [|w ws _] eqn:Hw using rev_ind; [|by eexists _, _].
      apply words_nil_inv in Hw.
      rewrite blank_line_spec, cstr_app_nul in Hnb by done.
      apply not_true_iff_false in Hnb. exfalso. apply Hnb.
      apply forallb_forall. intros c Hc%list_elem_of_In.
      eapply Forall_forall in Hw; eauto. }
    destruct Hargs as (init & lastf & Hargs).
    destruct (parse_inbuf_args hl line init lastf) as (r & b' & -> & _); [done| |done|].
    + intros Hf Hin. apply Hno. by split.
    + by eexists _, _, _.
Qed.

(** ** The background flag (C5) *)

(** C5, as amended: for every line without a history reference and
    with at least one argument, the background flag is set if and only
    if the last argument contains ['&'] (for a line that starts with a
    built-in the last argument is the whole line).  When the last
    argument starts with ['&'] it is removed from the argument vector;
    otherwise the final argument is the last argument cut before its
    first ['&'], trailing white space removed, so [word&] gives [word]
    when [word] has no ['&']. *)
Theorem background_flag_first_amp hl line init lastf :
  NUL ∉ line →
  (find_internal (line ++ [NUL]) = None → "!"%char ∉ line) →
  arguments line = init ++ [lastf] →
  ∃ r b',
    parse_inbuf hl (line ++ [NUL]) = Some ([], Some r, b') ∧
    background r = bool_decide ("&"%char ∈ lastf) ∧
    argv_text r = Some
      (if bool_decide (head lastf = Some "&"%char)
       then (Some <$> init) ++ [None; None]
       else (Some <$> init ++ [rstrip (before_amp lastf)]) ++ [None]).
Proof.
  intros Hnul Hexc Hargs.
  destruct (parse_inbuf_args hl line init lastf Hnul Hexc Hargs)
    as (r & b' & Hp & _ & _ & Hbg & Hargv).
  by exists r, b'.
Qed.

Lemma background_flag_first_amp_witness :
  ∃ r b',
    parse_inbuf [] (cs "sleep 5 now&" ++ [LF] ++ [NUL]) = Some ([], Some r, b') ∧
    background r = true ∧
    argv_text r = Some [Some (cs "sleep"); Some (cs "5"); Some (cs "now"); None].
Proof.
  destruct (background_flag_first_amp [] (cs "sleep 5 now&" ++ [LF])
              [cs "sleep"; cs "5"] (cs "now&"))
    as (r & b' & Hp & Hbg & Hargv).
  - apply (bool_decide_unpack _). vm_compute. exact I.
  - intros _. apply (bool_decide_unpack _). vm_compute. exact I.
  - vm_compute; reflexivity.
  - exists r, b'. rewrite <- app_assoc in Hp. split; [exact Hp|]. split.
    + rewrite Hbg. vm_compute; reflexivity.
    + rewrite Hargv. vm_compute; reflexivity.
Defined.

(** C5 as stated fails: the last token of [ls a&b] is neither [&] nor
    ends with [&], yet the record is a background one. *)
Lemma background_flag_counterexample :
  ∃ ev r b',
    parse_inbuf [] (cs "ls a&b" ++ [LF; NUL]) = Some (ev, Some r, b') ∧
    last (words (cs "ls a&b" ++ [LF])) = Some (cs "a&b") ∧
    cs "a&b" ≠ cs "&" ∧ last (cs "a&b") ≠ Some "&"%char ∧
    background r = true.
Proof.
  eexists _, _, _. split; [vm_compute; reflexivity|].
  split; [vm_compute; reflexivity|]. by repeat split.
Qed.

(** ** A line that is only ['&'] (C10) *)

Lemma argv_text_null r :
  argv_text r = Some [None; None] → cmdvec r = Some [None; None].
Proof.
  unfold argv_text. destruct (cmdvec r) as [[|[?|] [|[?|] [|??]]]|]; by intros [=].
Qed.

(** C10: for a line whose only token is [&], [parse_inbuf] returns a
    background record whose argument vector starts with the null
    pointer; [main] forks for it all the same, and the child hands that
    null pointer to [execvp] as the program name. *)
Theorem lone_amp_execs_null BUFSIZ w st pre post evs h jl hl :
  Forall (λ c, is_ws c = true) pre → Forall (λ c, is_ws c = true) post →
  sweep w st = Some (evs, h, jl) →
  hist_append BUFSIZ (histlist st) = Some hl →
  ∃ r b' st',
    parse_inbuf hl ((pre ++ "&"%char :: post) ++ [NUL]) = Some ([], Some r, b') ∧
    background r = true ∧ internal r = None ∧ cmdvec r = Some [None; None] ∧
    main_iter BUFSIZ w st (Some (pre ++ "&"%char :: post))
      = after ([prompt w st; EvFgets (Some (pre ++ "&"%char :: post))] ++ evs)
              (launch w st' r b') ∧
    (fork w = ForkChild →
     ∃ ev o, launch w st' r b' = Some (EvFork :: EvExecvp None [None; None] :: ev, o)).
Proof.
  intros Hpre Hpost Hs Hh. set (line := pre ++ "&"%char :: post).
  assert (Hws : ∀ l c, Forall (λ c, is_ws c = true) l → c ∈ l → is_ws c = true).
  { intros l c Hl Hc. eapply Forall_forall in Hl; eauto. }
  assert (Hnul : NUL ∉ line).
  { unfold line. rewrite elem_of_app, elem_of_cons.
    intros [H|[H|H]]; [|done|]; by eapply Hws in H. }
  assert (Hexc : "!"%char ∉ line).
  { unfold line. rewrite elem_of_app, elem_of_cons.
    intros [H|[H|H]]; [|done|]; by eapply Hws in H. }
  assert (Hf : find_internal (line ++ [NUL]) = None).
  { destruct (find_internal (line ++ [NUL])) as [f|] eqn:Hf; [|done].
    apply find_internal_head in Hf as (c & x & Hb & Hc & _ & Hamp).
    unfold line in Hb. destruct pre as [|c' pre]; simplify_eq/=.
    apply Forall_inv in Hpre. congruence. }
  assert (Hargs : arguments line = [] ++ [["&"%char]]).
  { unfold arguments. rewrite Hf. unfold line.
    rewrite words_ws by done. change ("&"%char :: post) with (["&"%char] ++ post).
    rewrite (words_token ["&"%char] post); [|done|by repeat constructor|].
    - by rewrite words_nil.
    - destruct post; [done|]. by apply Forall_inv in Hpost. }
  destruct (parse_inbuf_args hl line [] ["&"%char] Hnul (λ _, Hexc) Hargs)
    as (r & b' & Hp & Hint & _ & Hbg & Hargv).
  rewrite Hf in Hint. apply argv_text_null in Hargv.
  assert (Hblank : blank_line line = false).
  { rewrite blank_line_spec, cstr_app_nul by done. unfold line.
    rewrite forallb_app. simpl. by rewrite andb_false_r. }
  eexists r, b', _. split; [exact Hp|].
  split; [rewrite Hbg; vm_compute; reflexivity|]. split; [exact Hint|].
  split; [exact Hargv|]. split.
  - unfold main_iter. fold line. rewrite Hs. cbn [mbind option_bind].
    rewrite Hblank. cbn [histlist with_jobs with_count with_hist].
    rewrite Hh. cbn [mbind option_bind histlist with_hist]. rewrite Hp.
    cbn [mbind option_bind]. unfold dispatch. rewrite Hint.
    by rewrite after_nil, after_app.
  - intros Hfork. unfold launch. rewrite Hfork, Hint, Hargv. cbn.
    destruct (execvp w); by eexists _, _.
Qed.

Lemma lone_amp_execs_null_witness :
  ∃ tr o,
    main_iter 8192
      {| getuid := 1000; waitpid_nohang := λ _, WaitNone; fork := ForkChild;
         waitpid_fg := WExited 0; execvp := Some (cs "Bad address") |}
      (shell_init []) (ln "&") = Some (tr, o) ∧
    tr !! 3%nat = Some (EvExecvp None [None; None]).
Proof.
  destruct (lone_amp_execs_null 8192
      {| getuid := 1000; waitpid_nohang := λ _, WaitNone; fork := ForkChild;
         waitpid_fg := WExited 0; execvp := Some (cs "Bad address") |}
      (shell_init []) [] [LF] [] ∅ None [Input_zero])
    as (r & b' & st' & _ & _ & _ & _ & Hm & Hl).
  - constructor.
  - repeat constructor.
  - reflexivity.
  - reflexivity.
  - destruct (Hl eq_refl) as (ev & o & Hev). cbn [app] in Hm.
    unfold ln. change (cs "&" ++ [LF]) with ("&"%char :: [LF]).
    rewrite Hm, Hev. eexists _, _. split; reflexivity.
Defined.

(** ** History references (C9) *)

Lemma digit_cases d :
  d < 10 → d ∈ [0; 1; 2; 3; 4; 5; 6; 7; 8; 9].
Proof.
  intros H.
  assert (d = 0 ∨ d = 1 ∨ d = 2 ∨ d = 3 ∨ d = 4 ∨ d = 5 ∨ d = 6 ∨ d = 7 ∨ d = 8 ∨ d = 9)
    as Hd by lia.
  repeat (destruct Hd as [->|Hd]; [apply (bool_decide_unpack _); vm_compute; exact I|]).
  subst. apply (bool_decide_unpack _); vm_compute; exact I.
Qed.

Lemma digit_char_spec d :
  d < 10 →
  digit_val (digit_char d) = Some d ∧ is_ws (digit_char d) = false ∧
  is_nul (digit_char d) = false ∧
  digit_char d ≠ "-"%char ∧ digit_char d ≠ "+"%char ∧ digit_char d ≠ "!"%char.
Proof.
  intros H%digit_cases. rewrite !elem_of_cons, elem_of_nil in H.
  repeat (destruct H as [->|H]; [by vm_compute|]). done.
Qed.

Lemma strtoul_digits_app ds c rest acc :
  Forall (λ d, d < 10) ds → digit_val c = None →
  strtoul_digits ((digit_char <$> ds) ++ c :: rest) acc
    = fold_left (λ a d, a * 10 + d) ds acc.
Proof.
  intros Hds Hc. revert acc. induction Hds as [|d ds Hd _ IH]; intros acc.
  - simpl. by rewrite Hc.
  - cbn [fmap list_fmap app strtoul_digits fold_left].
    destruct (digit_char_spec d Hd) as [-> _]. apply IH.
Qed.

(** [strtoul] reads a decimal numeral that a byte other than a digit
    follows. *)
Lemma strtoul_decimal ds c rest :
  Forall (λ d, d < 10) ds → ds ≠ [] → digit_val c = None →
  decimal ds ≤ ULONG_MAX →
  strtoul ((digit_char <$> ds) ++ c :: rest) = decimal ds.
Proof.
  intros Hds Hne Hc Hmax. unfold strtoul.
  destruct ds as [|d ds]; [done|]. pose proof (Forall_inv Hds) as Hd.
  destruct (digit_char_spec d Hd) as (_ & Hws & _ & Hm & Hp & _).
  cbn [fmap list_fmap app]. rewrite span_stop by done. cbn [drop].
  rewrite (bool_decide_eq_false_2 (digit_char d = "-"%char)) by done.
  rewrite (bool_decide_eq_false_2 (digit_char d = "+"%char)) by done.
  change (digit_char d :: (digit_char <$> ds) ++ c :: rest)
    with ((digit_char <$> d :: ds) ++ c :: rest).
  rewrite strtoul_digits_app by done. fold (decimal (d :: ds)).
  destruct (N.ltb_spec ULONG_MAX (decimal (d :: ds))); [lia|done].
Qed.

Lemma strchr_first pre c x :
  c ∉ pre → NUL ∉ pre → strchr (pre ++ c :: x) c = Some (length pre).
Proof.
  intros Hc Hn. induction pre as [|a pre IH]; cbn [app strchr length].
  - by rewrite bool_decide_eq_true_2.
  - apply not_elem_of_cons in Hc as [Hc1 Hc2]. apply not_elem_of_cons in Hn as [Hn1 Hn2].
    rewrite bool_decide_eq_false_2 by congruence.
    assert (is_nul a = false) as -> by (apply is_nul_false; congruence).
    by rewrite IH.
Qed.

(** The loop over [histlist] stops on node number [hr], counting the
    head as 1. *)
Lemma hist_find_spec hl cnt hr :
  cnt < hr → hr ≤ cnt + N.of_nat (length hl) →
  cnt + N.of_nat (length hl) < UINT_MOD →
  hist_find hl cnt hr = (hl !! N.to_nat (hr - cnt - 1), hr).
Proof.
  revert cnt. induction hl as [|h hl IH]; intros cnt Hlt Hle Hmax; simpl in *; [lia|].
  rewrite N.mod_small by lia.
  destruct (N.eqb_spec (cnt + 1) hr) as [<-|Hne].
  - by replace (cnt + 1 - cnt - 1) with 0 by lia.
  - rewrite IH by lia.
    replace (N.to_nat (hr - cnt - 1)) with (S (N.to_nat (hr - (cnt + 1) - 1))) by lia.
    done.
Qed.

(** [builtin_history] prints one line per node, in list order,
    numbered from 1. *)
Lemma builtin_history_from_spec hp cnt ev :
  cnt + N.of_nat (length hp) < UINT_MOD →
  builtin_history_from hp cnt = Some ev →
  length ev = length hp ∧
  ∀ i e, hp !! i = Some e →
    ∃ name cv, cmdvec e = Some (name :: cv) ∧
      ev !! i = Some (EvHistory (cnt + N.of_nat i + 1) (cstr <$> name) (background e)).
Proof.
  revert cnt ev. induction hp as [|h hp IH]; intros cnt ev Hmax H; simpl in H.
  - simplify_eq. split; [done|]. intros i e Hi. by rewrite lookup_nil in Hi.
  - destruct (cmdvec h) as [[|name cv]|] eqn:Hcv; simpl in H; try done.
    rewrite N.mod_small in H by (simpl in Hmax; lia).
    destruct (builtin_history_from hp (cnt + 1)) as [rest|] eqn:Hr; simpl in H; [|done].
    injection H as <-. apply IH in Hr as [Hlen Hr]; [|simpl in Hmax; lia].
    split; [simpl; by rewrite Hlen|].
    intros [|i] e Hi; simpl in Hi.
    + simplify_eq. exists name, cv. split; [done|]. simpl. by rewrite N.add_0_r.
    + destruct (Hr i e Hi) as (name' & cv' & Hc' & He). exists name', cv'.
      split; [done|]. simpl. rewrite He. do 2 f_equal. lia.
Qed.

Lemma poke_keeps_digits pre digs c rest k :
  digit_val c = None → (length digs ≤ k)%nat →
  ∃ c' rest',
    drop (length pre) (poke (pre ++ digs ++ c :: rest) (length pre + k) NUL)
      = digs ++ c' :: rest' ∧ digit_val c' = None.
Proof.
  intros Hc Hk. rewrite poke_app_r, drop_app_length.
  apply Nat.le_exists_sub in Hk as (j & -> & _).
  rewrite (Nat.add_comm j), poke_app_r.
  destruct j as [|j]; simpl; by eexists _, _.
Qed.

(** C9: a reference [!N] with N between 1 and the number of nodes in
    the history resolves to node number N counted from the head, the
    oldest one, whatever the list holds at that moment; [history]
    prints the nodes in list order, which is the order they were
    linked in, and numbers them the same way. *)
Theorem history_reference_resolves hl pre ds c rest :
  find_internal (pre ++ "!"%char :: (digit_char <$> ds) ++ c :: rest) = None →
  "!"%char ∉ pre → NUL ∉ pre →
  Forall (λ d, d < 10) ds → digit_val c = None →
  1 ≤ decimal ds → decimal ds ≤ N.of_nat (length hl) →
  N.of_nat (length hl) < UINT_MOD →
  ∃ e b',
    hl !! (N.to_nat (decimal ds) - 1)%nat = Some e ∧
    parse_inbuf hl (pre ++ "!"%char :: (digit_char <$> ds) ++ c :: rest)
      = Some ([], Some {| cmdvec := cmdvec e; internal := internal e;
                          background := background e; historical := true |}, b') ∧
    ∀ ev, builtin_history hl = Some ev →
      length ev = length hl ∧
      ∀ i e', hl !! i = Some e' →
        ∃ name cv, cmdvec e' = Some (name :: cv) ∧
          ev !! i = Some (EvHistory (N.of_nat i + 1) (cstr <$> name) (background e')).
Proof.
  intros Hf Hexc Hnul Hds Hc H1 Hn Hmax.
  assert (Hne : ds ≠ []) by (intros ->; unfold decimal in H1; simpl in H1; lia).
  destruct (lookup_lt_is_Some_2 hl (N.to_nat (decimal ds) - 1)) as [e He]; [lia|].
  unfold parse_inbuf. rewrite Hf, strchr_first by done.
  set (b := pre ++ "!"%char :: (digit_char <$> ds) ++ c :: rest).
  set (p := (S (length pre) + strcspn_ws (drop (S (length pre)) b))%nat).
  assert (Hd : ∃ c' rest', drop (S (length pre)) (poke b p NUL)
                 = (digit_char <$> ds) ++ c' :: rest' ∧ digit_val c' = None).
  { unfold p, b.
    replace (pre ++ "!"%char :: (digit_char <$> ds) ++ c :: rest)
      with ((pre ++ ["!"%char]) ++ (digit_char <$> ds) ++ c :: rest) by (by norm_app).
    replace (S (length pre)) with (length (pre ++ ["!"%char]))
      by (rewrite length_app; simpl; lia).
    apply poke_keeps_digits; [done|]. rewrite drop_app_length.
    unfold strcspn_ws. rewrite span_app.
    - rewrite length_fmap. lia.
    - apply Forall_fmap. eapply Forall_impl; [exact Hds|]. intros d Hd. simpl.
      destruct (digit_char_spec d Hd) as (_ & -> & -> & _). done. }
  destruct Hd as (c' & rest' & -> & Hc').
  rewrite strtoul_decimal; [|done|done|done|unfold ULONG_MAX, UINT_MOD in *; lia].
  destruct (N.eqb_spec (decimal ds) 0) as [?|_]; [lia|].
  rewrite hist_find_spec by lia.
  rewrite N.eqb_refl. cbn [negb].
  replace (N.to_nat (decimal ds - 0 - 1)) with (N.to_nat (decimal ds) - 1)%nat by lia.
  rewrite He. cbn [mbind option_bind].
  exists e, (poke b p NUL). split; [done|]. split; [done|].
  intros ev Hev. unfold builtin_history in Hev.
  apply builtin_history_from_spec in Hev; [|lia]. done.
Qed.

Lemma history_reference_resolves_witness :
  ∃ e b',
    three_commands !! 1%nat = Some e ∧
    parse_inbuf three_commands (cs "!2" ++ [LF; NUL])
      = Some ([], Some {| cmdvec := cmdvec e; internal := internal e;
                          background := background e; historical := true |}, b') ∧
    internal e = Some h_echo ∧
    builtin_history three_commands
      = Some [EvHistory 1 (Some (cs "ls")) false;
              EvHistory 2 (Some (cs "echo hi")) false;
              EvHistory 3 (Some (cs "pwd")) false].
Proof.
  destruct (history_reference_resolves three_commands [] [2] LF [NUL])
    as (e & b' & He & Hp & _).
  - vm_compute; reflexivity.
  - apply (bool_decide_unpack _). vm_compute. exact I.
  - apply (bool_decide_unpack _). vm_compute. exact I.
  - repeat constructor.
  - vm_compute; reflexivity.
  - vm_compute. discriminate.
  - vm_compute. discriminate.
  - vm_compute; reflexivity.
  - exists e, b'. split; [exact He|]. split; [exact Hp|].
    split; [|vm_compute; reflexivity].
    vm_compute in He. injection He as <-. reflexivity.
Defined.

(** ** History replay (C1) *)

Lemma parse_tail_historical int b cl ev d b' :
  parse_tail int b cl = Some (ev, Some d, b') → historical d = false.
Proof.
  unfold parse_tail, parse_trim. intros H.
  destruct (last cl); [simpl in H|done].
  destruct (strchr _ _); by simplify_eq.
Qed.

Lemma hist_find_lookup hl cnt hr e c :
  hist_find hl cnt hr = (Some e, c) → ∃ k, hl !! k = Some e.
Proof.
  revert cnt. induction hl as [|h hl IH]; intros cnt H; simpl in H; [done|].
  destruct (_ =? hr).
  - simplify_eq. by exists 0%nat.
  - apply IH in H as [k Hk]. by exists (S k).
Qed.

(** A record with [historical] set is a copy of a node of the history. *)
Lemma parse_inbuf_historical hl b ev d b' :
  parse_inbuf hl b = Some (ev, Some d, b') → historical d = true →
  ∃ k e, hl !! k = Some e ∧ cmdvec d = cmdvec e ∧ internal d = internal e ∧
         background d = background e ∧ ev = [].
Proof.
  unfold parse_inbuf. intros H Hh.
  destruct (find_internal b).
  { apply parse_tail_historical in H. congruence. }
  destruct (strchr b "!") as [x|].
  - destruct (_ =? 0); [done|].
    destruct (hist_find _ _ _) as [hp cnt] eqn:Hfind.
    destruct (negb _); [done|]. destruct hp as [e|]; simplify_eq/=.
    apply hist_find_lookup in Hfind as [k Hk]. by exists k, e.
  - destruct (tokenize _ _ _ _) as [[b1 cl]|]; [simpl in H|done].
    apply parse_tail_historical in H. congruence.
Qed.

(** C1, as amended: when the line is a history reference that resolves,
    the shell links a new node for the line at the tail of the history
    and stores in it the argument vector, built-in and background flag
    of the node the reference resolved to; the record it dispatches
    carries the same three fields, and a foreground built-in is called
    on the first argument of that node. *)
Theorem history_replay_recorded BUFSIZ w st line tr o st' hl evp d b' :
  main_iter BUFSIZ w st (Some line) = Some (tr, o) →
  outcome_state o = Some st' →
  blank_line line = false →
  hist_append BUFSIZ (histlist st) = Some hl →
  parse_inbuf hl (line ++ [NUL]) = Some (evp, Some d, b') →
  historical d = true →
  ∃ k e old,
    hl !! k = Some e ∧
    cmdvec d = cmdvec e ∧ internal d = internal e ∧ background d = background e ∧
    hl = old ++ [Input_zero] ∧
    histlist st' = old ++ [{| cmdvec := cmdvec e; internal := internal e;
                              background := background e; historical := false |}] ∧
    ∃ evs h jl st2 evd,
      sweep w st = Some (evs, h, jl) ∧
      histlist st2 = histlist st' ∧
      dispatch w st2 d b' = Some (evd, o) ∧
      tr = [prompt w st; EvFgets (Some line)] ++ evs ++ evd ∧
      ∀ f, internal e = Some f → background e = false →
        ∃ arg cv, cmdvec e = Some (arg :: cv) ∧ call_internal f st2 arg = Some (evd, o).
Proof.
  intros Hit Ho Hnb Hh Hp Hhist.
  destruct (parse_inbuf_historical _ _ _ _ _ Hp Hhist) as (k & e & Hk & Hcv & Hint & Hbg & ->).
  apply main_iter_line in Hit as (evs & h & jl & Hs & Hit). simpl in Hit.
  rewrite Hnb in Hit. destruct Hit as (hl' & evp' & ret & b'' & Hh' & Hp' & Hit).
  rewrite Hh in Hh'. injection Hh' as <-. rewrite Hp in Hp'. simplify_eq.
  destruct Hit as (evd & Hd & ->).
  pose proof (hist_append_Some _ _ _ Hh) as Hold.
  set (old := if decide (_ ∧ _) then _ else _) in Hold.
  pose proof (dispatch_session _ _ _ _ _ _ _ Hd Ho) as [Hhl _].
  cbn [histlist with_hist] in Hhl. rewrite Hold, hist_store_snoc in Hhl.
  rewrite Hcv, Hint, Hbg in Hhl. cbn [historical Input_zero] in Hhl.
  exists k, e, old. repeat (split; [done|]).
  eexists evs, h, jl, _, evd. split; [done|]. split; [|split; [exact Hd|split; [done|]]].
  { cbn [histlist with_hist]. rewrite Hold at 1. rewrite hist_store_snoc.
    by rewrite Hhl, Hcv, Hint, Hbg. }
  intros f Hf Hfg. unfold dispatch in Hd. rewrite Hint, Hf, Hbg, Hfg, Hhist, Hcv in Hd.
  destruct (cmdvec e) as [[|arg cv]|]; simplify_option_eq. by exists arg, cv.
Qed.

Lemma history_replay_recorded_witness :
  ∃ tr st st' tr' e,
    main_loop 8192 [(quiet 100, ln "ls"); (quiet 101, ln "echo hi"); (quiet 102, ln "pwd")]
      (shell_init []) = Some (tr, Continue st) ∧
    main_iter 8192 (quiet 103) st (ln "!2") = Some (tr', Continue st') ∧
    histlist st !! 1%nat = Some e ∧
    histlist st' = histlist st ++ [e] ∧
    tr' !! 2%nat = Some (EvPuts (cs "hi")).
Proof.
  eexists _, _, _, _, _. split; [vm_compute; reflexivity|].
  split; [vm_compute; reflexivity|].
  split; [vm_compute; reflexivity|].
  match goal with
  | |- histlist ?st' = histlist ?st ++ _ ∧ ?tr' !! _ = _ =>
      destruct (history_replay_recorded 8192 (quiet 103) st (cs "!2" ++ [LF]) tr'
                  (Continue st') st' (histlist st ++ [Input_zero]) []
                  {| cmdvec := Some [Some (cs "echo hi" ++ [NUL; NUL]); None];
                     internal := Some h_echo; background := false; historical := true |}
                  (cs "!2" ++ [NUL; NUL]))
        as (k & e & old & _ & _ & _ & _ & _ & Hst' & _)
  end.
  - vm_compute; reflexivity.
  - reflexivity.
  - vm_compute; reflexivity.
  - vm_compute; reflexivity.
  - vm_compute; reflexivity.
  - reflexivity.
  - split; vm_compute; reflexivity.
Defined.

(** C1 as stated fails: after [ls], [echo hi] and [pwd] the line [!2]
    prints [hi] and leaves a fourth entry in the history. *)
Lemma history_replay_counterexample :
  ∃ tr st tr' st',
    main_loop 8192 [(quiet 100, ln "ls"); (quiet 101, ln "echo hi"); (quiet 102, ln "pwd")]
      (shell_init []) = Some (tr, Continue st) ∧
    main_iter 8192 (quiet 103) st (ln "!2") = Some (tr', Continue st') ∧
    tr' !! 2%nat = Some (EvPuts (cs "hi")) ∧
    length (histlist st) = 3%nat ∧
    length (histlist st') = 4%nat.
Proof.
  eexists _, _, _, _. split; [vm_compute; reflexivity|].
  split; [vm_compute; reflexivity|].
  split; [vm_compute; reflexivity|].
  split; vm_compute; reflexivity.
Qed.

(** ** The sweep on a well-formed job table *)

Lemma is_joblist_inj h p l1 l2 :
  is_joblist h p l1 → is_joblist h p l2 → l1 = l2.
Proof.
  revert p l2. induction l1 as [|a l1 IH]; intros p [|b l2]; simpl.
  - done.
  - intros -> [? _]. done.
  - intros [-> _] ?. done.
  - intros [-> (j & Hj & H1)] [[= <-] (j' & Hj' & H2)]. simplify_eq.
    f_equal. by eapply IH.
Qed.

Lemma is_joblist_app h p l1 l2 :
  is_joblist h p (l1 ++ l2) → ∃ q, is_joblist h q l2.
Proof.
  revert p. induction l1 as [|a l1 IH]; intros p; simpl; [by eexists|].
  intros [_ (j & _ & H)]. by eapply IH.
Qed.

(** A list that ends in a null pointer visits no node twice. *)
Lemma is_joblist_NoDup h p l : is_joblist h p l → NoDup l.
Proof.
  revert p. induction l as [|a l IH]; intros p H; [constructor|].
  pose proof H as [-> (j & Hj & Hl)]. constructor; [|by eapply IH].
  intros (l1 & l2 & ->)%list_elem_of_split.
  destruct (is_joblist_app _ _ _ _ Hl) as [q Hq].
  pose proof Hq as [-> _].
  pose proof (is_joblist_inj _ _ _ _ H Hq) as Heq.
  apply (f_equal length) in Heq. rewrite !length_cons, length_app, length_cons in Heq. lia.
Qed.

Lemma is_joblist_elem h p l a : is_joblist h p l → a ∈ l → is_Some (h !! a).
Proof.
  revert p. induction l as [|b l IH]; intros p H Ha; [by apply elem_of_nil in Ha|].
  destruct H as [_ (j & Hj & Hl)]. apply elem_of_cons in Ha as [->|Ha]; [by eexists|].
  by eapply IH.
Qed.

(** The fuel [sweep] and [builtin_jobs] start with covers the list. *)
Lemma is_joblist_length h p l : is_joblist h p l → (length l ≤ size h)%nat.
Proof.
  intros H. rewrite <- size_dom.
  change (size (dom h)) with (length (elements (dom h))).
  apply submseteq_length, NoDup_submseteq; [by eapply is_joblist_NoDup|].
  intros a Ha. apply elem_of_elements, elem_of_dom. by eapply is_joblist_elem.
Qed.

(** While no visited job has exited, the loop leaves the table as it
    is: a running job and a signalled one both stay linked. *)
Lemma sweep_from_none_exited fuel w h jl p l jprev cnt :
  is_joblist h p l → (length l ≤ fuel)%nat →
  (∀ a, a ∈ l → ¬ job_exited w h a) →
  ∃ ev, sweep_from fuel w h jl p jprev cnt = Some (ev, h, jl).
Proof.
  revert fuel p jprev cnt. induction l as [|a l IH]; intros fuel p jprev cnt Hl Hfuel Hrun.
  - simpl in Hl. subst p. destruct fuel; by eexists.
  - destruct Hl as [-> (j & Hj & Hl)]. destruct fuel as [|fuel]; [simpl in Hfuel; lia|].
    cbn [sweep_from]. rewrite Hj. cbn [mbind option_bind].
    assert (Hrun' : ∀ b, b ∈ l → ¬ job_exited w h b) by (intros b Hb; apply Hrun; by right).
    destruct (waitpid_nohang w (pid j)) as [[code|s core]|] eqn:Hw.
    + exfalso. apply (Hrun a); [by left|]. by exists j, code.
    + destruct (IH fuel (next j) (Some a) ((cnt + 1) mod UINT_MOD)) as [ev ->];
        [done|simpl in Hfuel; lia|done|]. by eexists.
    + destruct (IH fuel (next j) jprev ((cnt + 1) mod UINT_MOD)) as [ev ->];
        [done|simpl in Hfuel; lia|done|]. by eexists.
Qed.

(** When the first job found exited is the last node, the loop frees
    the head of the list and empties the table. *)
Lemma sweep_from_last_exited fuel w h hd p l a jprev cnt :
  is_joblist h p (l ++ [a]) → (length (l ++ [a]) ≤ fuel)%nat →
  (∀ b, b ∈ l → ¬ job_exited w h b) → job_exited w h a →
  is_Some (h !! hd) →
  ∃ ev, sweep_from fuel w h (Some hd) p jprev cnt = Some (ev, delete hd h, None).
Proof.
  intros Hl Hfuel Hrun Hex [jh Hhd].
  revert fuel p jprev cnt Hl Hfuel. induction l as [|b l IH]; intros fuel p jprev cnt Hl Hfuel.
  - destruct Hl as [-> (j & Hj & Hn)]. simpl in Hn.
    destruct fuel as [|fuel]; [simpl in Hfuel; lia|].
    destruct Hex as (j' & code & Hj' & Hw). rewrite Hj in Hj'. injection Hj' as <-.
    cbn [sweep_from]. rewrite Hj. cbn [mbind option_bind]. rewrite Hw, Hn, Hhd.
    cbn [mbind option_bind]. by eexists.
  - destruct Hl as [-> (j & Hj & Hl)]. destruct fuel as [|fuel]; [simpl in Hfuel; lia|].
    cbn [sweep_from]. rewrite Hj. cbn [mbind option_bind].
    assert (Hrun' : ∀ c, c ∈ l → ¬ job_exited w h c) by (intros c Hc; apply Hrun; by right).
    destruct (waitpid_nohang w (pid j)) as [[code|s core]|] eqn:Hw.
    + exfalso. apply (Hrun b); [by left|]. by exists j, code.
    + destruct (IH Hrun' fuel (next j) (Some b) ((cnt + 1) mod UINT_MOD)) as [ev ->];
        [done|simpl in Hfuel; lia|]. by eexists.
    + destruct (IH Hrun' fuel (next j) jprev ((cnt + 1) mod UINT_MOD)) as [ev ->];
        [done|simpl in Hfuel; lia|]. by eexists.
Qed.

(** A sweep in which no job has exited changes nothing. *)
Lemma sweep_none_exited w st l :
  is_joblist (jobheap st) (joblist st) l →
  (∀ a, a ∈ l → ¬ job_exited w (jobheap st) a) →
  ∃ ev, sweep w st = Some (ev, jobheap st, joblist st).
Proof.
  intros Hl Hrun. unfold sweep.
  eapply sweep_from_none_exited; [done| |done]. by eapply is_joblist_length.
Qed.

(** A sweep that finds the last job exited, and none before it, drops
    every job of the table, the running ones included. *)
Lemma sweep_last_exited w st l a :
  is_joblist (jobheap st) (joblist st) (l ++ [a]) →
  (∀ b, b ∈ l → ¬ job_exited w (jobheap st) b) →
  job_exited w (jobheap st) a →
  ∃ ev hd,
    joblist st = Some hd ∧
    sweep w st = Some (ev, delete hd (jobheap st), None).
Proof.
  intros Hl Hrun Hex. unfold sweep.
  assert (∃ hd, joblist st = Some hd ∧ is_Some (jobheap st !! hd)) as (hd & Hhd & Hsome).
  { destruct l as [|b l]; destruct Hl as [-> (j & Hj & _)]; by eexists. }
  rewrite Hhd in Hl |- *.
  destruct (sweep_from_last_exited (size (jobheap st)) w (jobheap st) hd (Some hd) l a None 0)
    as [ev Hev]; [done|by eapply is_joblist_length|done..|].
  by exists ev, hd.
Qed.


(** ** Linking a background job *)


(** Nodes of the heap that are not overwritten keep the list they
    start. *)
Lemma is_joblist_insert_fresh h p l a node :
  h !! a = None → is_joblist h p l → is_joblist (<[a := node]> h) p l.
Proof.
  intros Ha. revert p. induction l as [|b l IH]; intros p; simpl; [done|].
  intros [-> (j & Hj & Hl)]. split; [done|]. exists j. split; [|by apply IH].
  rewrite lookup_insert_ne; [done|]. intros ->. congruence.
Qed.



(** ** The sweep of the job table (C2) *)

(** C2 fails on the code: with [sleep 5 &] (process 100) still running
    and [sleep 1 &] (process 101), the last node, exited, the sweep
    frees the head and sets [joblist] to null, so the running job is
    gone from the table as well. *)
Theorem sweep_drops_running_job :
  waitpid_nohang (exited 101 102) 100 = WaitNone ∧
  builtin_jobs (jobheap two_jobs) (joblist two_jobs)
    = Some [EvRunning 100 1 (cs "sleep 5"); EvRunning 101 2 (cs "sleep 1")] ∧
  ∃ h,
    sweep (exited 101 102) two_jobs
      = Some ([EvWaitpid 100 true; EvWaitpid 101 true; EvEnd 101 2 (cs "sleep 1") 0],
              h, None) ∧
    h !! 0%nat = None ∧
    builtin_jobs h None = Some [].
Proof.
  split; [reflexivity|]. split; [vm_compute; reflexivity|].
  eexists. split; [vm_compute; reflexivity|]. split; vm_compute; reflexivity.
Qed.

(** ** A failed history reference (C3) *)

Lemma builtin_history_from_null hl1 hl2 cnt :
  builtin_history_from (hl1 ++ Input_zero :: hl2) cnt = None.
Proof.
  revert cnt. induction hl1 as [|h hl1 IH]; intros cnt; [done|].
  cbn [app builtin_history_from].
  destruct (cmdvec h) as [[|name cv]|]; [done| |done].
  cbn [mbind option_bind head]. by rewrite IH.
Qed.

(** Whatever the line, a parse that fails leaves the zero-filled node
    at the tail of the history, and [history] is undefined from then
    on while the node is in the list. *)
Lemma failed_parse_leaves_node BUFSIZ w st line tr o st' hl evp b' :
  main_iter BUFSIZ w st (Some line) = Some (tr, o) →
  outcome_state o = Some st' →
  blank_line line = false →
  hist_append BUFSIZ (histlist st) = Some hl →
  parse_inbuf hl (line ++ [NUL]) = Some (evp, None, b') →
  ∃ old, histlist st' = old ++ [Input_zero] ∧ builtin_history (histlist st') = None.
Proof.
  intros Hit Ho Hnb Hh Hp.
  pose proof (main_iter_session _ _ _ _ _ _ _ Hit Ho) as Hs. rewrite Hnb in Hs.
  destruct Hs as (_ & hl' & evp' & ret & b'' & Hh' & Hp' & ->).
  rewrite Hh in Hh'. injection Hh' as <-. rewrite Hp in Hp'. injection Hp' as <- <- <-.
  apply hist_append_Some in Hh. eexists. split; [exact Hh|].
  rewrite Hh. apply builtin_history_from_null.
Qed.

(** C3 fails on the code: [main] links the zero-filled node for the
    line before it calls [parse_inbuf], and leaves it in the list when
    the parse fails; [builtin_history] then reads through the null
    [cmdvec] of that node.  On an empty history [!1] even resolves, to
    the node just linked. *)
Theorem failed_reference_leaves_node :
  (∃ tr st' ev b',
     main_iter 8192 (quiet 100) (shell_init []) (ln "!5") = Some (tr, Continue st') ∧
     parse_inbuf [Input_zero] (cs "!5" ++ [LF; NUL]) = Some (ev, None, b') ∧
     ev = [EvFault (FEventNotFound 5)] ∧
     histlist (shell_init []) = [] ∧
     histlist st' = [Input_zero] ∧
     builtin_history (histlist st') = None) ∧
  (∃ tr st' b',
     main_iter 8192 (quiet 100) (shell_init []) (ln "!1") = Some (tr, Continue st') ∧
     parse_inbuf [Input_zero] (cs "!1" ++ [LF; NUL])
       = Some ([], Some {| cmdvec := None; internal := None;
                           background := false; historical := true |}, b') ∧
     tr !! 2%nat = Some EvFork).
Proof.
  split.
  - eexists _, _, _, _. split; [vm_compute; reflexivity|].
    split; [vm_compute; reflexivity|]. repeat split; vm_compute; reflexivity.
  - eexists _, _, _. split; [vm_compute; reflexivity|].
    split; vm_compute; reflexivity.
Qed.

(** ** set with an argument that starts with ['='] (C8) *)

(** [builtin_set] reports the syntax error and then installs the
    binding all the same. *)
Lemma builtin_set_eq env gap arg :
  gap ≠ [] → Forall (λ c, is_ws c = true) gap → NUL ∉ arg →
  builtin_set env (cs "set" ++ gap ++ "="%char :: arg ++ [NUL])
    = Some ([EvFault FSyntaxEq; EvPutenv ("="%char :: arg)],
            putenv env ("="%char :: arg)).
Proof.
  intros Hne Hgap Harg. unfold builtin_set.
  change (drop 3 (cs "set" ++ ?x)) with x.
  destruct gap as [|g gap]; [done|]. cbn [app].
  change (g :: gap ++ ?x) with ((g :: gap) ++ x).
  unfold strspn_ws. rewrite span_app_stop, drop_app_length by done.
  change (is_nul "=") with false. cbv iota.
  assert (strchr ("="%char :: arg ++ [NUL]) "=" = Some 0%nat) as -> by done.
  rewrite (bool_decide_eq_true_2 (Some 0%nat = Some 0%nat)) by done.
  change ("="%char :: arg ++ [NUL]) with (("="%char :: arg) ++ NUL :: []).
  rewrite cstr_app_nul; [done|].
  intros [?|?]%elem_of_cons; [done|by apply Harg].
Qed.

(** C8 fails on the code: [set =x] prints the syntax error, and then
    [putenv] is called with [=x], which adds that string to the
    environment. *)
Theorem set_eq_changes_environ :
  builtin_set [cs "HOME=/root"] (cs "set =x" ++ [NUL])
    = Some ([EvFault FSyntaxEq; EvPutenv (cs "=x")], [cs "HOME=/root"; cs "=x"]) ∧
  ∃ tr st',
    main_iter 8192 (quiet 100) (shell_init [cs "HOME=/root"]) (ln "set =x")
      = Some (tr, Continue st') ∧
    tr !! 2%nat = Some (EvFault FSyntaxEq) ∧
    tr !! 3%nat = Some (EvPutenv (cs "=x")) ∧
    environ (shell_init [cs "HOME=/root"]) = [cs "HOME=/root"] ∧
    environ st' = [cs "HOME=/root"; cs "=x"].
Proof.
  split; [vm_compute; reflexivity|].
  eexists _, _. split; [vm_compute; reflexivity|].
  repeat split; vm_compute; reflexivity.
Qed.

(** * Further properties of the source *)

(** ** Recognising a built-in *)

Lemma starts_with_split name b :
  starts_with name b = true → b = cs name ++ drop (length (cs name)) b.
Proof.
  unfold starts_with. intros H%bool_decide_eq_true.
  rewrite <- (take_drop (length (cs name)) b) at 1. by rewrite H.
Qed.

Lemma peek_ws_split pre x :
  is_ws (peek (pre ++ x) (length pre)) = true →
  ∃ c rest, x = c :: rest ∧ is_ws c = true.
Proof.
  destruct x as [|c rest].
  - unfold peek. rewrite lookup_ge_None_2 by (rewrite length_app; simpl; lia). done.
  - rewrite peek_at. by eexists _, _.
Qed.

Lemma keyword_test name b :
  starts_with name b && is_ws (peek b (length (cs name))) = true →
  ∃ c rest, b = cs name ++ c :: rest ∧ is_ws c = true.
Proof.
  intros [Hs Hp]%andb_true_iff. apply starts_with_split in Hs.
  rewrite Hs in Hp. apply peek_ws_split in Hp as (c & rest & Hx & Hc).
  rewrite Hx in Hs. by exists c, rest.
Qed.

Lemma find_internal_intro f c rest :
  is_ws c = true → find_internal (cs (keyword f) ++ c :: rest) = Some f.
Proof.
  intros Hc. destruct f; unfold find_internal, starts_with; cbn; by rewrite Hc.
Qed.

(** X1: [parse_inbuf] takes a line for a built-in exactly when the line
    starts, at its very first byte, with one of the six keywords and a
    white-space byte follows the keyword; leading white space or a
    keyword that ends the buffer gives an external command. *)
Theorem find_internal_keyword b f :
  find_internal b = Some f ↔
  ∃ c rest, b = cs (keyword f) ++ c :: rest ∧ is_ws c = true.
Proof.
  split.
  - unfold find_internal. intros H.
    repeat match type of H with
    | (if ?t then _ else _) = _ =>
        let E := fresh "E" in
        destruct t eqn:E;
          [injection H as <-; exact (keyword_test _ _ E)|]
    end.
    done.
  - intros (c & rest & -> & Hc). by apply find_internal_intro.
Qed.

Lemma find_internal_keyword_witness :
  find_internal (cs "history" ++ [LF; NUL]) = Some h_history ∧
  find_internal (cs " history" ++ [LF; NUL]) = None ∧
  find_internal (cs "history" ++ [NUL]) = None.
Proof.
  split; [|split; reflexivity].
  apply (find_internal_keyword (cs "history" ++ [LF; NUL]) h_history).
  exists LF, [NUL]. split; reflexivity.
Defined.

(** ** echo *)

Lemma strpbrk_first name sep x :
  Forall (λ c, is_sp_tab c = false ∧ c ≠ NUL) name → is_sp_tab sep = true →
  strpbrk_sp_tab (name ++ sep :: x) = Some (length name).
Proof.
  intros Hname Hsep. induction Hname as [|c name [Hc Hn] _ IH]; cbn [app strpbrk_sp_tab length].
  - unfold is_sp_tab in Hsep. by rewrite Hsep.
  - unfold is_sp_tab in Hc. rewrite Hc.
    assert (is_nul c = false) as -> by by apply is_nul_false.
    by rewrite IH.
Qed.

Lemma strpbrk_none name x :
  Forall (λ c, is_sp_tab c = false ∧ c ≠ NUL) name →
  strpbrk_sp_tab (name ++ NUL :: x) = None.
Proof.
  intros Hname. induction Hname as [|c name [Hc Hn] _ IH]; cbn [app strpbrk_sp_tab].
  - done.
  - unfold is_sp_tab in Hc. rewrite Hc.
    assert (is_nul c = false) as -> by by apply is_nul_false.
    by rewrite IH.
Qed.

Lemma builtin_echo_separator name sep text rest :
  Forall (λ c, is_sp_tab c = false ∧ c ≠ NUL) name →
  is_sp_tab sep = true → NUL ∉ text →
  builtin_echo (name ++ sep :: text ++ NUL :: rest)
    = if bool_decide (text = []) then [EvNewline] else [EvPuts text].
Proof.
  intros Hname Hsep Htext. unfold builtin_echo.
  rewrite strpbrk_first by done.
  replace (name ++ sep :: text ++ NUL :: rest)
    with ((name ++ [sep]) ++ text ++ NUL :: rest) by (by rewrite <- app_assoc).
  replace (S (length name)) with (length (name ++ [sep]))
    by (rewrite length_app; simpl; lia).
  rewrite drop_app_length, cstr_app_nul by done.
  destruct text as [|c text]; cbn [app].
  - by rewrite peek_at.
  - rewrite peek_at. rewrite bool_decide_eq_false_2 by done.
    assert (is_nul c = false) as ->; [|done].
    apply is_nul_false. intros ->. apply Htext. by left.
Qed.

Lemma builtin_echo_bare name rest :
  Forall (λ c, is_sp_tab c = false ∧ c ≠ NUL) name →
  builtin_echo (name ++ NUL :: rest) = [EvNewline].
Proof. intros Hname. unfold builtin_echo. by rewrite strpbrk_none. Qed.

(** X2: [builtin_echo] prints what follows the first space or tab of
    its argument, byte for byte up to the terminator (further white
    space included), and an empty line when nothing follows it or the
    argument has no space or tab. *)
Theorem builtin_echo_text name sep text rest :
  Forall (λ c, is_sp_tab c = false ∧ c ≠ NUL) name →
  is_sp_tab sep = true → NUL ∉ text →
  builtin_echo (name ++ sep :: text ++ NUL :: rest)
    = (if bool_decide (text = []) then [EvNewline] else [EvPuts text]) ∧
  builtin_echo (name ++ NUL :: rest) = [EvNewline].
Proof.
  intros Hname Hsep Htext. split.
  - by apply builtin_echo_separator.
  - by apply builtin_echo_bare.
Qed.

Lemma builtin_echo_text_witness :
  builtin_echo (cs "echo" ++ " "%char :: cs " a  b" ++ NUL :: [NUL])
    = [EvPuts (cs " a  b")] ∧
  builtin_echo (cs "echo" ++ NUL :: [NUL]) = [EvNewline].
Proof.
  apply (builtin_echo_text (cs "echo") " "%char (cs " a  b") [NUL]).
  - repeat constructor; by vm_compute.
  - reflexivity.
  - apply (bool_decide_unpack _). vm_compute. exact I.
Defined.

(** ** Built-in lines from the prompt to the call *)

Lemma rstrip_app_ws x c gs :
  is_ws c = false → Forall (λ a, is_ws a = true) gs →
  rstrip (x ++ c :: gs) = x ++ [c].
Proof.
  intros Hc Hgs. unfold rstrip.
  rewrite reverse_app, reverse_cons, <- app_assoc. cbn [app].
  rewrite span_app_stop by (by apply Forall_reverse || done).
  rewrite drop_app_length, reverse_cons, reverse_involutive. done.
Qed.

(** The record and the buffer [parse_inbuf] returns for a line that
    starts with a built-in: the single argument is the buffer itself,
    cut before the first ['&'] and after the last byte before it that
    is not white space. *)
Lemma parse_inbuf_builtin hl line f :
  NUL ∉ line → find_internal (line ++ [NUL]) = Some f →
  ∃ rest,
    parse_inbuf hl (line ++ [NUL])
      = Some ([], Some {| cmdvec := Some [Some (rstrip (before_amp line) ++ NUL :: rest); None];
                          internal := Some f;
                          background := bool_decide ("&"%char ∈ line);
                          historical := false |},
              rstrip (before_amp line) ++ NUL :: rest).
Proof.
  intros Hnul Hf. unfold parse_inbuf. rewrite Hf.
  apply find_internal_head in Hf as (c & x & Hb & Hc & Hcn & Hamp).
  assert (Hhead : ∃ c w', line = c :: w' ∧ is_ws c = false).
  { destruct line as [|c' w']; simplify_eq/=. by eexists _, _. }
  assert (Hcut : ∀ vec bg m, (0 < m ≤ length line)%nat →
            ∃ rest, parse_trim (Some f) (line ++ [NUL]) vec bg m
              = ([], Some {| cmdvec := Some (fmap (M := option)
                                (λ o, drop o (rstrip (take m line) ++ NUL :: rest)) <$> vec);
                             internal := Some f; background := bg; historical := false |},
                 rstrip (take m line) ++ NUL :: rest)).
  { intros vec bg m Hm. unfold parse_trim. rewrite bool_decide_eq_false_2 by lia.
    destruct (trim_buffer [] line [] m Hhead Hm) as [rest Hrest].
    cbn [app length] in Hrest. rewrite Nat.add_0_l in Hrest.
    exists rest. by rewrite Hrest. }
  unfold parse_tail. cbn [last mbind option_bind].
  change (drop 0 (line ++ [NUL])) with (line ++ [NUL]).
  rewrite (strchr_app_nul line [] "&"%char) by done.
  destruct (decide ("&"%char ∈ line)) as [Hin|Hin].
  - rewrite !(bool_decide_eq_true_2 ("&"%char ∈ line)) by done.
    change (span (λ a, negb (bool_decide (a = "&"%char))) line)
      with (span (λ c, negb (is_amp c)) line).
    assert (Hm : (0 < span (λ c, negb (is_amp c)) line ≤ length line)%nat).
    { split; [|apply span_le].
      assert (span (λ c, negb (is_amp c)) line ≠ 0%nat); [|lia].
      intros E. apply (span_amp_0 line Hin) in E.
      destruct line as [|c' w']; simplify_eq/=. }
    rewrite bool_decide_eq_false_2 by lia. cbn [Nat.add].
    destruct (Hcut ((Some <$> [0%nat]) ++ [None]) true _ Hm) as [rest ->].
    exists rest. done.
  - rewrite !(bool_decide_eq_false_2 ("&"%char ∈ line)) by done.
    rewrite strlen_app_nul by done. cbn [Nat.add].
    assert (Hm : (0 < length line ≤ length line)%nat).
    { destruct Hhead as (c' & w' & -> & _). simpl. lia. }
    destruct (Hcut ((Some <$> [0%nat]) ++ [None]) false _ Hm) as [rest ->].
    exists rest. by rewrite firstn_all, before_amp_no_amp.
Qed.

Section Builtin_lines.

Variable BUFSIZ : N.

(** A line that starts with a built-in and has no ['&'] is recorded
    and the built-in is called on the trimmed line. *)
Lemma main_iter_builtin w st line f evs h jl hl :
  NUL ∉ line → "&"%char ∉ line →
  find_internal (line ++ [NUL]) = Some f →
  sweep w st = Some (evs, h, jl) →
  hist_append BUFSIZ (histlist st) = Some hl →
  ∃ rest st1,
    histlist st1 = hist_store hl
      {| cmdvec := Some [Some (rstrip line ++ NUL :: rest); None]; internal := Some f;
         background := false; historical := false |} ∧
    jobheap st1 = h ∧ joblist st1 = jl ∧ environ st1 = environ st ∧
    count_commands st1 = (count_commands st + 1) mod ULONG_MOD ∧
    main_iter BUFSIZ w st (Some line)
      = after ([prompt w st; EvFgets (Some line)] ++ evs)
              (call_internal f st1 (Some (rstrip line ++ NUL :: rest))).
Proof.
  intros Hnul Hamp Hf Hs Hh.
  destruct (parse_inbuf_builtin hl line f Hnul Hf) as [rest Hp].
  rewrite before_amp_no_amp, (bool_decide_eq_false_2 ("&"%char ∈ line)) in Hp by done.
  assert (Hblank : blank_line line = false).
  { apply find_internal_head in Hf as (c & x & Hb & Hc & Hcn & _).
    unfold blank_line, strspn_ws. rewrite Hb. rewrite span_stop by done.
    by apply is_nul_false. }
  eexists rest, _. split; [|split; [|split; [|split; [|split]]]]; cycle 5.
  - unfold main_iter. rewrite Hs. cbn [mbind option_bind].
    rewrite Hblank. cbn [histlist with_jobs with_count with_hist].
    rewrite Hh. cbn [mbind option_bind histlist with_hist]. rewrite Hp.
    cbn [mbind option_bind]. unfold dispatch.
    cbn [internal background historical mbind option_bind].
    rewrite after_nil, after_app. reflexivity.
  - reflexivity.
  - reflexivity.
  - reflexivity.
  - reflexivity.
  - reflexivity.
Qed.

End Builtin_lines.

(** ** exit and echo, typed at the prompt *)

Lemma is_ws_plain c :
  is_ws c = true →
  c ≠ NUL ∧ c ≠ "&"%char ∧ c ≠ "!"%char ∧ c ≠ "="%char ∧ is_nul c = false.
Proof. by destruct c as [[] [] [] [] [] [] [] []]. Qed.

Lemma ws_run_plain g a :
  Forall (λ c, is_ws c = true) g → a ∈ g → is_ws a = true.
Proof. intros Hg Ha. eapply Forall_forall in Hg; eauto. Qed.

Lemma not_in_ws_run a g :
  is_ws a = false → Forall (λ c, is_ws c = true) g → a ∉ g.
Proof. intros Ha Hg Hin. eapply Forall_forall in Hg; eauto. congruence. Qed.

(** Side conditions of the form [a ∉ line] for a line given by its
    parts. *)
Ltac plain_line :=
  cbn; rewrite ?not_elem_of_cons, ?not_elem_of_app, ?not_elem_of_cons;
  repeat split; try done; try congruence; try (by apply not_in_ws_run).

(** X3: a line made of [exit] and white space only ends the shell, the
    line being recorded in the history first; [exit] followed by any
    other text returns to the prompt without printing anything. *)
Theorem exit_line BUFSIZ w st c g y d evs h jl hl :
  is_ws c = true → Forall (λ a, is_ws a = true) g →
  NUL ∉ y → "&"%char ∉ y → is_ws d = false → d ≠ NUL → d ≠ "&"%char →
  sweep w st = Some (evs, h, jl) →
  hist_append BUFSIZ (histlist st) = Some hl →
  (∃ st', main_iter BUFSIZ w st (Some (cs "exit" ++ c :: g))
            = Some ([prompt w st; EvFgets (Some (cs "exit" ++ c :: g))] ++ evs, Exited st') ∧
          length (histlist st') = length hl) ∧
  (∃ st', main_iter BUFSIZ w st (Some (cs "exit" ++ c :: y ++ d :: g))
            = Some ([prompt w st; EvFgets (Some (cs "exit" ++ c :: y ++ d :: g))] ++ evs,
                    Continue st')).
Proof.
  intros Hc Hg Hy Hya Hd Hdn Hda Hs Hh.
  destruct (is_ws_plain c Hc) as (Hcn & Hca & _ & _ & Hcz).
  split.
  - destruct (main_iter_builtin BUFSIZ w st (cs "exit" ++ c :: g) h_exit evs h jl hl)
      as (rest & st1 & Hst1 & _ & _ & _ & _ & ->); [| |by apply (find_internal_intro h_exit)|done..|].
    { plain_line. }
    { plain_line. }
    assert (rstrip (cs "exit" ++ c :: g) = cs "exit") as ->.
    { change (cs "exit" ++ c :: g) with (cs "exi" ++ "t"%char :: (c :: g)).
      by rewrite (rstrip_app_ws (cs "exi") "t"%char (c :: g)) by (done || by constructor). }
    cbn. rewrite app_nil_r. exists st1. split; [done|].
    by rewrite Hst1, hist_store_length.
  - destruct (main_iter_builtin BUFSIZ w st (cs "exit" ++ c :: y ++ d :: g) h_exit evs h jl hl)
      as (rest & st1 & _ & _ & _ & _ & _ & ->); [| |by apply (find_internal_intro h_exit)|done..|].
    { plain_line. }
    { plain_line. }
    assert (rstrip (cs "exit" ++ c :: y ++ d :: g) = cs "exit" ++ c :: y ++ [d]) as ->.
    { replace (cs "exit" ++ c :: y ++ d :: g) with ((cs "exit" ++ c :: y) ++ d :: g)
        by (by norm_app).
      rewrite (rstrip_app_ws (cs "exit" ++ c :: y) d g) by done. by norm_app. }
    cbn. rewrite Hcz. cbn. rewrite app_nil_r. by exists st1.
Qed.

Lemma exit_line_witness :
  (∃ st', main_iter 8192 (quiet 100) (shell_init []) (ln "exit")
            = Some ([EvPrompt 1 false; EvFgets (ln "exit")], Exited st')) ∧
  (∃ st', main_iter 8192 (quiet 100) (shell_init []) (ln "exit now")
            = Some ([EvPrompt 1 false; EvFgets (ln "exit now")], Continue st')).
Proof.
  destruct (exit_line 8192 (quiet 100) (shell_init []) LF [] (cs "no") "w"%char
              [] ∅ None [Input_zero]) as [[st1 [H1 _]] _]; try done.
  { apply (bool_decide_unpack _). vm_compute. exact I. }
  { apply (bool_decide_unpack _). vm_compute. exact I. }
  destruct (exit_line 8192 (quiet 100) (shell_init []) " "%char [LF] (cs "no") "w"%char
              [] ∅ None [Input_zero]) as [_ [st2 H2]]; try done.
  { repeat constructor. }
  { apply (bool_decide_unpack _). vm_compute. exact I. }
  { apply (bool_decide_unpack _). vm_compute. exact I. }
  split; [by exists st1|by exists st2].
Defined.

(** X4: typed at the prompt, [echo], a space or tab, and a text that
    has no ['&'] and ends in a byte that is not white space prints that
    text without the white space that ends the line; [echo] alone
    prints an empty line.  The shell goes on to the next prompt. *)
Theorem echo_line BUFSIZ w st sep c g y d evs h jl hl :
  is_sp_tab sep = true → is_ws c = true → Forall (λ a, is_ws a = true) g →
  NUL ∉ y → "&"%char ∉ y → is_ws d = false → d ≠ NUL → d ≠ "&"%char →
  sweep w st = Some (evs, h, jl) →
  hist_append BUFSIZ (histlist st) = Some hl →
  (∃ st', main_iter BUFSIZ w st (Some (cs "echo" ++ sep :: y ++ d :: g))
            = Some ([prompt w st; EvFgets (Some (cs "echo" ++ sep :: y ++ d :: g))]
                      ++ evs ++ [EvPuts (y ++ [d])], Continue st')) ∧
  (∃ st', main_iter BUFSIZ w st (Some (cs "echo" ++ c :: g))
            = Some ([prompt w st; EvFgets (Some (cs "echo" ++ c :: g))]
                      ++ evs ++ [EvNewline], Continue st')).
Proof.
  intros Hsep Hc Hg Hy Hya Hd Hdn Hda Hs Hh.
  assert (Hsepw : is_ws sep = true).
  { apply bool_decide_eq_true in Hsep as [->| ->]; reflexivity. }
  destruct (is_ws_plain sep Hsepw) as (Hsn & Hsa & _).
  destruct (is_ws_plain c Hc) as (Hcn & Hca & _).
  assert (Hname : Forall (λ a, is_sp_tab a = false ∧ a ≠ NUL) (cs "echo")).
  { repeat constructor; by vm_compute. }
  split.
  - destruct (main_iter_builtin BUFSIZ w st (cs "echo" ++ sep :: y ++ d :: g) h_echo evs h jl hl)
      as (rest & st1 & _ & _ & _ & _ & _ & ->); [| |by apply (find_internal_intro h_echo)|done..|].
    { plain_line. }
    { plain_line. }
    assert (rstrip (cs "echo" ++ sep :: y ++ d :: g) = cs "echo" ++ sep :: y ++ [d]) as ->.
    { replace (cs "echo" ++ sep :: y ++ d :: g) with ((cs "echo" ++ sep :: y) ++ d :: g)
        by (by norm_app).
      rewrite (rstrip_app_ws (cs "echo" ++ sep :: y) d g) by done. by norm_app. }
    replace ((cs "echo" ++ sep :: y ++ [d]) ++ NUL :: rest)
      with (cs "echo" ++ sep :: (y ++ [d]) ++ NUL :: rest) by (by norm_app).
    cbn [call_internal mbind option_bind].
    rewrite builtin_echo_separator; [|done|done|].
    + rewrite bool_decide_eq_false_2 by (by destruct y). exists st1.
      cbn [after]. by rewrite <- !app_assoc.
    + rewrite elem_of_app, elem_of_cons, elem_of_nil. intros [?|[?|?]]; done.
  - destruct (main_iter_builtin BUFSIZ w st (cs "echo" ++ c :: g) h_echo evs h jl hl)
      as (rest & st1 & _ & _ & _ & _ & _ & ->); [| |by apply (find_internal_intro h_echo)|done..|].
    { plain_line. }
    { plain_line. }
    assert (rstrip (cs "echo" ++ c :: g) = cs "echo") as ->.
    { change (cs "echo" ++ c :: g) with (cs "ech" ++ "o"%char :: (c :: g)).
      by rewrite (rstrip_app_ws (cs "ech") "o"%char (c :: g)) by (done || by constructor). }
    cbn [call_internal mbind option_bind].
    rewrite builtin_echo_bare by done. exists st1.
    cbn [after]. by rewrite <- !app_assoc.
Qed.

Lemma echo_line_witness :
  (∃ st', main_iter 8192 (quiet 100) (shell_init []) (ln "echo hello  ")
            = Some ([EvPrompt 1 false; EvFgets (ln "echo hello  "); EvPuts (cs "hello")],
                    Continue st')) ∧
  (∃ st', main_iter 8192 (quiet 100) (shell_init []) (ln "echo")
            = Some ([EvPrompt 1 false; EvFgets (ln "echo"); EvNewline], Continue st')).
Proof.
  destruct (echo_line 8192 (quiet 100) (shell_init []) " "%char LF (cs "  " ++ [LF])
              (cs "hell") "o"%char [] ∅ None [Input_zero]) as [[st1 H1] _]; try done.
  { repeat constructor. }
  { apply (bool_decide_unpack _). vm_compute. exact I. }
  { apply (bool_decide_unpack _). vm_compute. exact I. }
  destruct (echo_line 8192 (quiet 100) (shell_init []) " "%char LF []
              (cs "hell") "o"%char [] ∅ None [Input_zero]) as [_ [st2 H2]]; try done.
  { apply (bool_decide_unpack _). vm_compute. exact I. }
  { apply (bool_decide_unpack _). vm_compute. exact I. }
  split; [by exists st1|by exists st2].
Defined.

(** ** set *)






(** ** set, typed at the prompt *)





(** ** The job table *)

Lemma sweep_from_none_exited_quiet fuel w h jl p l jprev cnt :
  is_joblist h p l → (length l ≤ fuel)%nat →
  (∀ a, a ∈ l → ¬ job_exited w h a) →
  ∃ ev, sweep_from fuel w h jl p jprev cnt = Some (ev, h, jl) ∧
        Forall (λ e, is_end e = false) ev.
Proof.
  revert fuel p jprev cnt. induction l as [|a l IH]; intros fuel p jprev cnt Hl Hfuel Hrun.
  - simpl in Hl. subst p. destruct fuel; by eexists.
  - destruct Hl as [-> (j & Hj & Hl)]. destruct fuel as [|fuel]; [simpl in Hfuel; lia|].
    cbn [sweep_from]. rewrite Hj. cbn [mbind option_bind].
    assert (Hrun' : ∀ b, b ∈ l → ¬ job_exited w h b) by (intros b Hb; apply Hrun; by right).
    destruct (waitpid_nohang w (pid j)) as [[code|s core]|] eqn:Hw.
    + exfalso. apply (Hrun a); [by left|]. by exists j, code.
    + destruct (IH fuel (next j) (Some a) ((cnt + 1) mod UINT_MOD)) as (ev & -> & Hev);
        [done|simpl in Hfuel; lia|done|].
      eexists. split; [reflexivity|]. by repeat constructor.
    + destruct (IH fuel (next j) jprev ((cnt + 1) mod UINT_MOD)) as (ev & -> & Hev);
        [done|simpl in Hfuel; lia|done|].
      eexists. split; [reflexivity|]. by repeat constructor.
Qed.

(** X7: when the job table is a well-formed list and [waitpid] reports
    no job of it as exited, the sweep leaves the table as it is and
    prints no [End] line; a job killed by a signal stays in the
    table. *)
Theorem sweep_keeps_table w st l :
  is_joblist (jobheap st) (joblist st) l →
  (∀ a, a ∈ l → ¬ job_exited w (jobheap st) a) →
  ∃ ev, sweep w st = Some (ev, jobheap st, joblist st) ∧
        Forall (λ e, is_end e = false) ev.
Proof.
  intros Hl Hrun. unfold sweep.
  apply (sweep_from_none_exited_quiet _ w _ _ _ l); [done| |done].
  by eapply is_joblist_length.
Qed.

Lemma sweep_keeps_table_witness :
  ∃ ev, sweep (quiet 102) two_jobs = Some (ev, jobheap two_jobs, joblist two_jobs) ∧
        Forall (λ e, is_end e = false) ev.
Proof.
  apply (sweep_keeps_table (quiet 102) two_jobs [0%nat; 1%nat]).
  - vm_compute. split; [reflexivity|]. eexists. split; [reflexivity|].
    split; [reflexivity|]. eexists. split; reflexivity.
  - intros a _ (j & code & _ & Hw). discriminate Hw.
Defined.

(** X8: when the last job of a well-formed table has exited and no job
    before it has, the sweep frees the first node of the table and sets
    [joblist] to null, however many jobs the table held. *)
Theorem sweep_last_job_exited w st l a :
  is_joblist (jobheap st) (joblist st) (l ++ [a]) →
  (∀ b, b ∈ l → ¬ job_exited w (jobheap st) b) →
  job_exited w (jobheap st) a →
  ∃ ev hd,
    joblist st = Some hd ∧ head (l ++ [a]) = Some hd ∧
    sweep w st = Some (ev, delete hd (jobheap st), None).
Proof.
  intros Hl Hrun Ha.
  destruct (sweep_last_exited w st l a Hl Hrun Ha) as (ev & hd & Hhd & Hs).
  exists ev, hd. split; [done|]. split; [|done].
  destruct (l ++ [a]) as [|x l0] eqn:E; [by destruct l|].
  destruct Hl as [Hx _]. cbn [head]. congruence.
Qed.

Lemma sweep_last_job_exited_witness :
  ∃ ev hd,
    joblist two_jobs = Some hd ∧ head ([0%nat] ++ [1%nat]) = Some hd ∧
    sweep (exited 101 102) two_jobs = Some (ev, delete hd (jobheap two_jobs), None).
Proof.
  apply (sweep_last_job_exited (exited 101 102) two_jobs [0%nat] 1%nat).
  - vm_compute. split; [reflexivity|]. eexists. split; [reflexivity|].
    split; [reflexivity|]. eexists. split; reflexivity.
  - intros b Hb (j & code & Hj & Hw).
    apply list_elem_of_singleton in Hb. subst b.
    vm_compute in Hj. injection Hj as <-. vm_compute in Hw. discriminate Hw.
  - eexists _, 0. split; [vm_compute; reflexivity|]. vm_compute. reflexivity.
Defined.



Lemma builtin_jobs_from_spec fuel h p l cnt :
  is_joblist h p l → (length l ≤ fuel)%nat →
  ∃ ev, builtin_jobs_from fuel h p cnt = Some ev ∧ length ev = length l ∧
        ∀ i a j, l !! i = Some a → h !! a = Some j →
                 ev !! i = Some (EvRunning (pid j) ((cnt + N.of_nat (S i)) mod UINT_MOD)
                                           (cstr (cmdbuf j))).
Proof.
  revert fuel p cnt. induction l as [|a l IH]; intros fuel p cnt Hl Hfuel.
  - simpl in Hl. subst p. exists []. destruct fuel; done.
  - destruct Hl as [-> (j & Hj & Hl)]. destruct fuel as [|fuel]; [simpl in Hfuel; lia|].
    cbn [builtin_jobs_from]. rewrite Hj. cbn [mbind option_bind].
    destruct (IH fuel (next j) ((cnt + 1) mod UINT_MOD)) as (ev & -> & Hlen & Hev);
      [done|simpl in Hfuel; lia|].
    eexists. split; [reflexivity|]. split; [by rewrite !length_cons, Hlen|].
    intros [|i] b jb Hb Hjb.
    + injection Hb as <-. rewrite Hj in Hjb. injection Hjb as <-. done.
    + rewrite lookup_cons in Hb. rewrite lookup_cons. rewrite (Hev i b jb Hb Hjb).
      assert (((cnt + 1) mod UINT_MOD + N.of_nat (S i)) mod UINT_MOD
              = (cnt + N.of_nat (S (S i))) mod UINT_MOD) as ->; [|done].
      rewrite N.Div0.add_mod_idemp_l. f_equal. lia.
Qed.

(** X10: [builtin_jobs] prints one line for each job of a well-formed
    table, in the order of the table, with the job's process, its
    position counted from 1, and the text of its buffer. *)
Theorem builtin_jobs_lists_table h p l :
  is_joblist h p l →
  ∃ ev, builtin_jobs h p = Some ev ∧ length ev = length l ∧
        ∀ i a j, l !! i = Some a → h !! a = Some j →
                 ev !! i = Some (EvRunning (pid j) (N.of_nat (S i) mod UINT_MOD)
                                           (cstr (cmdbuf j))).
Proof.
  intros Hl. unfold builtin_jobs.
  destruct (builtin_jobs_from_spec (size h) h p l 0 Hl) as (ev & Hev & Hlen & Hi).
  { by eapply is_joblist_length. }
  exists ev. split; [done|]. split; [done|]. intros i a j Ha Hj.
  by rewrite (Hi i a j Ha Hj).
Qed.

Lemma builtin_jobs_lists_table_witness :
  ∃ ev, builtin_jobs (jobheap two_jobs) (joblist two_jobs) = Some ev ∧
        length ev = 2%nat.
Proof.
  destruct (builtin_jobs_lists_table (jobheap two_jobs) (joblist two_jobs) [0%nat; 1%nat])
    as (ev & Hev & Hlen & _).
  - vm_compute. split; [reflexivity|]. eexists. split; [reflexivity|].
    split; [reflexivity|]. eexists. split; reflexivity.
  - by exists ev.
Defined.





(** ** parse_inbuf: blank lines and failing history references *)

Lemma parse_inbuf_blank hl line :
  Forall (λ c, is_ws c = true) line → parse_inbuf hl (line ++ [NUL]) = None.
Proof.
  intros Hws.
  assert (Hnul : NUL ∉ line) by (by apply not_in_ws_run).
  assert (Hexc : "!"%char ∉ line) by (by apply not_in_ws_run).
  unfold parse_inbuf.
  destruct (find_internal (line ++ [NUL])) as [f|] eqn:Hf.
  { apply find_internal_head in Hf as (c & x & Hb & Hc & Hcn & _).
    destruct line as [|a line]; cbn [app] in Hb; injection Hb as <- _; [done|].
    apply Forall_inv in Hws. congruence. }
  rewrite strchr_app_nul by done. rewrite bool_decide_eq_false_2 by done.
  destruct (tokenize_spec (length (line ++ [NUL])) line [] [] Hnul)
    as (segs & tail & Ht & Hsegs & _).
  { rewrite length_app. cbn [length]. lia. }
  cbn [app length] in Ht. rewrite Ht. cbn [mbind option_bind].
  rewrite words_nil in Hsegs by done. apply fmap_nil_inv in Hsegs as ->.
  reflexivity.
Qed.

(** X12: on a line without a zero byte [parse_inbuf] has a result
    exactly when the line is not blank.  On a blank line it reads
    [cl[len-1]] with [len] zero; [main] skips such lines before it
    gets there. *)
Theorem parse_inbuf_defined hl line :
  NUL ∉ line →
  is_Some (parse_inbuf hl (line ++ [NUL])) ↔ blank_line line = false.
Proof.
  intros Hnul. split.
  - intros [r Hr]. destruct (blank_line line) eqn:Hb; [|done].
    rewrite blank_line_spec, cstr_app_nul in Hb by done.
    rewrite parse_inbuf_blank in Hr; [done|].
    apply Forall_forall. intros c Hc.
    apply (proj1 (forallb_forall is_ws line) Hb). by apply list_elem_of_In.
  - intros Hb. destruct (parse_inbuf_total hl line Hnul Hb) as (ev & ret & b' & ->).
    by eexists.
Qed.

Lemma parse_inbuf_defined_witness :
  is_Some (parse_inbuf [] (cs "ls -l" ++ [NUL])) ↔ blank_line (cs "ls -l") = false.
Proof.
  apply (parse_inbuf_defined [] (cs "ls -l")).
  apply (bool_decide_unpack _). vm_compute. exact I.
Defined.

Lemma strtoul_no_digits c rest :
  digit_val c = None → is_ws c = false → c ≠ "-"%char → c ≠ "+"%char →
  strtoul (c :: rest) = 0.
Proof.
  intros Hd Hws Hm Hp. unfold strtoul. rewrite span_stop by done. cbn [drop].
  rewrite (bool_decide_eq_false_2 (c = "-"%char)) by done.
  rewrite (bool_decide_eq_false_2 (c = "+"%char)) by done.
  cbn [strtoul_digits]. rewrite Hd. reflexivity.
Qed.

Lemma poke_first pre c rest :
  ∃ rest',
    drop (length pre) (poke (pre ++ c :: rest) (length pre + strcspn_ws (c :: rest)) NUL)
      = (if is_ws c || is_nul c then NUL else c) :: rest'.
Proof.
  rewrite poke_app_r, drop_app_length. unfold strcspn_ws. cbn [span].
  destruct (is_ws c); cbn [negb andb orb]; [by eexists|].
  destruct (is_nul c); cbn [negb andb orb]; by eexists.
Qed.

Lemma hist_find_missing hl cnt hr :
  cnt + N.of_nat (length hl) < hr → cnt + N.of_nat (length hl) < UINT_MOD →
  hist_find hl cnt hr = (None, cnt + N.of_nat (length hl)).
Proof.
  revert cnt. induction hl as [|h hl IH]; intros cnt Hlt Hmax; cbn [hist_find length] in *.
  - by rewrite N.add_0_r.
  - rewrite N.mod_small by lia.
    destruct (N.eqb_spec (cnt + 1) hr) as [?|_]; [lia|].
    rewrite IH by lia. f_equal. lia.
Qed.

Lemma reference_number hl pre ds c rest :
  find_internal (pre ++ "!"%char :: (digit_char <$> ds) ++ c :: rest) = None →
  "!"%char ∉ pre → NUL ∉ pre →
  Forall (λ d, d < 10) ds → digit_val c = None →
  (ds = [] → c ≠ "-"%char ∧ c ≠ "+"%char) →
  decimal ds ≤ ULONG_MAX →
  ∃ b',
    parse_inbuf hl (pre ++ "!"%char :: (digit_char <$> ds) ++ c :: rest)
      = if decimal ds =? 0 then Some ([EvPerror (cs "strtoul")], None, b')
        else
          let '(hp, cnt) := hist_find hl 0 (decimal ds) in
          if negb (cnt =? decimal ds)
          then Some ([EvFault (FEventNotFound (decimal ds))], None, b')
          else
            h ← hp;
            Some ([], Some {| cmdvec := cmdvec h; internal := internal h;
                              background := background h; historical := true |}, b').
Proof.
  intros Hf Hexc Hnul Hds Hc Hsign Hmax.
  unfold parse_inbuf. rewrite Hf, strchr_first by done.
  set (b := pre ++ "!"%char :: (digit_char <$> ds) ++ c :: rest).
  set (p := (S (length pre) + strcspn_ws (drop (S (length pre)) b))%nat).
  exists (poke b p NUL).
  assert (strtoul (drop (S (length pre)) (poke b p NUL)) = decimal ds) as ->; [|done].
  destruct ds as [|d ds].
  - unfold p, b. cbn [fmap list_fmap app].
    replace (pre ++ "!"%char :: c :: rest) with ((pre ++ ["!"%char]) ++ c :: rest)
      by (by norm_app).
    replace (S (length pre)) with (length (pre ++ ["!"%char]))
      by (rewrite length_app; simpl; lia).
    rewrite drop_app_length.
    destruct (poke_first (pre ++ ["!"%char]) c rest) as [rest' ->].
    destruct Hsign as [Hm Hp]; [done|].
    destruct (is_ws c || is_nul c) eqn:Hw; [done|].
    apply orb_false_iff in Hw as [Hw _]. by apply strtoul_no_digits.
  - assert (Hd : ∃ c' rest', drop (S (length pre)) (poke b p NUL)
                   = (digit_char <$> d :: ds) ++ c' :: rest' ∧ digit_val c' = None).
    { unfold p, b.
      replace (pre ++ "!"%char :: (digit_char <$> d :: ds) ++ c :: rest)
        with ((pre ++ ["!"%char]) ++ (digit_char <$> d :: ds) ++ c :: rest) by (by norm_app).
      replace (S (length pre)) with (length (pre ++ ["!"%char]))
        by (rewrite length_app; simpl; lia).
      apply poke_keeps_digits; [done|]. rewrite drop_app_length.
      unfold strcspn_ws. rewrite span_app.
      - rewrite length_fmap. lia.
      - apply Forall_fmap. eapply Forall_impl; [exact Hds|]. intros x Hx. simpl.
        destruct (digit_char_spec x Hx) as (_ & -> & -> & _). done. }
    destruct Hd as (c' & rest' & -> & Hc').
    by rewrite strtoul_decimal.
Qed.

(** X13: a history reference whose number is zero, or is not a
    number, makes [parse_inbuf] report [strtoul] through [perror]; one
    whose number is larger than the number of nodes in the history
    reports that the event was not found.  Either way the result is a
    null pointer. *)
Theorem history_reference_fails hl pre ds c rest :
  find_internal (pre ++ "!"%char :: (digit_char <$> ds) ++ c :: rest) = None →
  "!"%char ∉ pre → NUL ∉ pre →
  Forall (λ d, d < 10) ds → digit_val c = None →
  (ds = [] → c ≠ "-"%char ∧ c ≠ "+"%char) →
  decimal ds ≤ ULONG_MAX → N.of_nat (length hl) < UINT_MOD →
  decimal ds = 0 ∨ N.of_nat (length hl) < decimal ds →
  ∃ b',
    parse_inbuf hl (pre ++ "!"%char :: (digit_char <$> ds) ++ c :: rest)
      = Some (if decimal ds =? 0 then [EvPerror (cs "strtoul")]
              else [EvFault (FEventNotFound (decimal ds))], None, b').
Proof.
  intros Hf Hexc Hnul Hds Hc Hsign Hmax Hlen Hcase.
  destruct (reference_number hl pre ds c rest) as [b' ->]; try done.
  exists b'. destruct (N.eqb_spec (decimal ds) 0) as [?|Hnz]; [done|].
  destruct Hcase as [?|Hlt]; [done|].
  rewrite hist_find_missing by lia. rewrite N.add_0_l.
  destruct (N.eqb_spec (N.of_nat (length hl)) (decimal ds)) as [?|_]; [lia|]. done.
Qed.

Lemma history_reference_fails_witness :
  (∃ b', parse_inbuf three_commands (cs "!7" ++ [LF; NUL])
           = Some ([EvFault (FEventNotFound 7)], None, b')) ∧
  (∃ b', parse_inbuf three_commands (cs "!x" ++ [NUL])
           = Some ([EvPerror (cs "strtoul")], None, b')).
Proof.
  split.
  - destruct (history_reference_fails three_commands [] [7] LF [NUL]) as [b' Hb].
    + vm_compute; reflexivity.
    + apply (bool_decide_unpack _). vm_compute. exact I.
    + apply (bool_decide_unpack _). vm_compute. exact I.
    + repeat constructor.
    + vm_compute; reflexivity.
    + intros [=].
    + vm_compute. discriminate.
    + vm_compute; reflexivity.
    + right. vm_compute; reflexivity.
    + exists b'. exact Hb.
  - destruct (history_reference_fails three_commands [] [] "x"%char [NUL]) as [b' Hb].
    + vm_compute; reflexivity.
    + apply (bool_decide_unpack _). vm_compute. exact I.
    + apply (bool_decide_unpack _). vm_compute. exact I.
    + constructor.
    + vm_compute; reflexivity.
    + intros _. split; discriminate.
    + vm_compute. discriminate.
    + vm_compute; reflexivity.
    + left. vm_compute; reflexivity.
    + exists b'. exact Hb.
Defined.

(** ** Iterations of the loop of main *)

Section Loop.

Variable BUFSIZ : N.

(** X14: on a blank line the iteration sweeps the job table and goes
    back to the prompt: nothing is added to the history, the counter
    and the environment stay as they are, and no process is
    started. *)
Theorem blank_line_skipped w st line evs h jl :
  Forall (λ c, is_ws c = true) line →
  sweep w st = Some (evs, h, jl) →
  main_iter BUFSIZ w st (Some line)
    = Some ([prompt w st; EvFgets (Some line)] ++ evs,
            Continue {| histlist := histlist st; jobheap := h; joblist := jl;
                        count_commands := count_commands st; environ := environ st |}).
Proof.
  intros Hws Hs.
  assert (Hb : blank_line line = true).
  { rewrite blank_line_spec, cstr_app_nul by (by apply not_in_ws_run).
    apply forallb_forall. intros c Hc. apply list_elem_of_In in Hc.
    by eapply ws_run_plain. }
  unfold main_iter. rewrite Hs. cbn [mbind option_bind]. rewrite Hb.
  cbn [after]. by rewrite app_nil_r.
Qed.

Hypothesis BUFSIZ_pos : 0 < BUFSIZ.
Hypothesis BUFSIZ_uint : BUFSIZ < UINT_MOD.

Lemma hist_append_length hl0 hl :
  N.of_nat (length hl0) ≤ BUFSIZ →
  hist_append BUFSIZ hl0 = Some hl →
  N.of_nat (length hl) = N.min (N.of_nat (length hl0) + 1) BUFSIZ.
Proof.
  intros Hlen H. apply hist_append_bounded in H as [_ ->]; [|done..].
  rewrite length_app. cbn [length].
  destruct (decide (N.of_nat (length hl0) = BUFSIZ)) as [Heq|Hne].
  - rewrite length_drop. destruct hl0; cbn [length] in *; lia.
  - lia.
Qed.

Lemma main_iter_counts w st input tr st' :
  N.of_nat (length (histlist st)) ≤ BUFSIZ →
  main_iter BUFSIZ w st input = Some (tr, Continue st') →
  count_commands st'
    = (if nonblank_count [(w, input)] =? 0 then count_commands st
       else (count_commands st + 1) mod ULONG_MOD) ∧
  N.of_nat (length (histlist st'))
    = N.min (N.of_nat (length (histlist st)) + nonblank_count [(w, input)]) BUFSIZ.
Proof.
  intros Hlen H. destruct input as [line|]; [|by unfold main_iter in H].
  pose proof (main_iter_session _ _ _ _ _ _ _ H eq_refl) as Hs.
  cbn [nonblank_count]. destruct (blank_line line).
  - destruct Hs as [-> ->]. cbn. split; [done|]. lia.
  - destruct Hs as (-> & hl & evp & ret & b' & Hh & _ & ->). cbn.
    split; [done|]. apply hist_append_length in Hh; [|done].
    destruct ret; [rewrite hist_store_length|]; lia.
Qed.

Lemma main_loop_from_counts inputs st tr st' :
  N.of_nat (length (histlist st)) ≤ BUFSIZ → count_commands st < ULONG_MOD →
  main_loop BUFSIZ inputs st = Some (tr, Continue st') →
  count_commands st' = (count_commands st + nonblank_count inputs) mod ULONG_MOD ∧
  N.of_nat (length (histlist st'))
    = N.min (N.of_nat (length (histlist st)) + nonblank_count inputs) BUFSIZ.
Proof.
  revert st tr. induction inputs as [|[w input] inputs IH]; intros st tr Hlen Hcnt H.
  - cbn [main_loop] in H. injection H as _ <-. cbn [nonblank_count].
    rewrite !N.add_0_r, N.mod_small by done. lia.
  - cbn [main_loop] in H.
    destruct (main_iter BUFSIZ w st input) as [[ev o1]|] eqn:Hi; [|done].
    cbn [mbind option_bind] in H.
    destruct o1 as [st1| |]; [|done..].
    apply after_Some in H as (tr' & H & ->).
    pose proof (main_iter_counts _ _ _ _ _ Hlen Hi) as [Hc Hh].
    destruct (IH st1 tr') as [-> ->]; [lia| |done|].
    { rewrite Hc. destruct (_ =? 0); [done|]. by apply N.mod_lt. }
    rewrite Hc, Hh. clear Hc Hh.
    assert (nonblank_count ((w, input) :: inputs)
            = nonblank_count [(w, input)] + nonblank_count inputs) as ->.
    { destruct input as [line|]; cbn [nonblank_count]; lia. }
    assert (nonblank_count [(w, input)] = 0 ∨ nonblank_count [(w, input)] = 1) as [-> | ->].
    { destruct input as [line|]; cbn [nonblank_count]; [destruct (blank_line line)|]; lia. }
    + cbn. split; [done|]. lia.
    + cbn. rewrite N.Div0.add_mod_idemp_l. split; [f_equal|]; lia.
Qed.

End Loop.

(** X15: however the lines were dispatched, as long as the shell is
    back at its prompt the counter shown in the prompt is one more than
    the number of non-blank lines read so far (modulo 2^64), and the
    history holds one node for each of them, up to [BUFSIZ] nodes. *)
Theorem main_loop_counts BUFSIZ inputs env tr st' :
  0 < BUFSIZ → BUFSIZ < UINT_MOD →
  main_loop BUFSIZ inputs (shell_init env) = Some (tr, Continue st') →
  count_commands st' = (1 + nonblank_count inputs) mod ULONG_MOD ∧
  N.of_nat (length (histlist st')) = N.min (nonblank_count inputs) BUFSIZ.
Proof.
  intros Hpos Huint H.
  apply main_loop_from_counts in H; [exact H|done|done| |reflexivity].
  cbn. lia.
Qed.

Lemma main_loop_counts_witness :
  ∃ tr st',
    main_loop 2 [(quiet 100, ln "ls"); (quiet 101, ln "  "); (quiet 102, ln "!x");
                 (quiet 103, ln "pwd")] (shell_init []) = Some (tr, Continue st') ∧
    count_commands st' = 4 ∧ length (histlist st') = 2%nat.
Proof.
  eexists _, _. split; [vm_compute; reflexivity|].
  destruct (main_loop_counts 2 [(quiet 100, ln "ls"); (quiet 101, ln "  ");
                                (quiet 102, ln "!x"); (quiet 103, ln "pwd")] []
              _ _ eq_refl eq_refl ltac:(vm_compute; reflexivity)) as [H1 H2].
  split; [rewrite H1; vm_compute; reflexivity|].
  apply Nat2N.inj. rewrite H2. vm_compute; reflexivity.
Defined.

Lemma blank_line_skipped_witness :
  main_iter 8192 (quiet 102) two_jobs (ln "  ")
    = Some ([EvPrompt 3 false; EvFgets (ln "  "); EvWaitpid 100 true; EvWaitpid 101 true],
            Continue two_jobs).
Proof.
  apply (blank_line_skipped 8192 (quiet 102) two_jobs (cs "  " ++ [LF])
           [EvWaitpid 100 true; EvWaitpid 101 true] (jobheap two_jobs) (Some 0%nat)).
  - repeat constructor.
  - vm_compute; reflexivity.
Defined.

(** ** The environment *)













(** ** What the history records *)

Lemma rstrip_elem a l : a ∈ rstrip l → a ∈ l.
Proof.
  unfold rstrip. rewrite elem_of_reverse. intros H.
  apply elem_of_reverse. eapply subseteq_drop, H.
Qed.

Lemma builtin_history_from_snoc hp e cnt ev name cv :
  builtin_history_from hp cnt = Some ev →
  cmdvec e = Some (name :: cv) →
  cnt + N.of_nat (length hp) + 1 < UINT_MOD →
  builtin_history_from (hp ++ [e]) cnt
    = Some (ev ++ [EvHistory (cnt + N.of_nat (length hp) + 1) (cstr <$> name)
                             (background e)]).
Proof.
  revert cnt ev. induction hp as [|h hp IH]; intros cnt ev H He Hmax.
  - cbn [builtin_history_from] in H. injection H as <-.
    cbn [app builtin_history_from]. rewrite He. cbn [mbind option_bind head].
    cbn [length N.of_nat] in *. rewrite N.add_0_r in *. by rewrite N.mod_small by lia.
  - cbn [app builtin_history_from] in H |- *.
    destruct (cmdvec h) as [[|n0 cv0]|]; cbn [mbind option_bind head] in H |- *;
      try done.
    destruct (builtin_history_from hp ((cnt + 1) mod UINT_MOD)) as [ev1|] eqn:H1;
      cbn [mbind option_bind] in H; [|done].
    injection H as <-. cbn [length] in Hmax.
    assert (Hsmall : cnt + 1 < UINT_MOD) by lia.
    rewrite (N.mod_small _ _ Hsmall) in H1 |- *.
    rewrite (IH (cnt + 1) ev1 H1 He) by lia. cbn [mbind option_bind app].
    assert (cnt + 1 + N.of_nat (length hp) + 1 = cnt + N.of_nat (length (h :: hp)) + 1) as ->
      by (cbn [length]; lia).
    done.
Qed.

(** X17: [history] typed at the prompt lists the nodes the history
    held, and after them the line just typed: [main] stores the parsed
    line in its node before it calls the built-in.  The entry shows the
    whole line up to its last byte that is not white space. *)
Theorem history_line BUFSIZ w st line older ev0 evs h jl :
  NUL ∉ line → "&"%char ∉ line →
  find_internal (line ++ [NUL]) = Some h_history →
  sweep w st = Some (evs, h, jl) →
  hist_append BUFSIZ (histlist st) = Some (older ++ [Input_zero]) →
  builtin_history older = Some ev0 →
  N.of_nat (length older) + 1 < UINT_MOD →
  ∃ st',
    main_iter BUFSIZ w st (Some line)
      = Some ([prompt w st; EvFgets (Some line)] ++ evs ++ ev0
                ++ [EvHistory (N.of_nat (length older) + 1) (Some (rstrip line)) false],
              Continue st').
Proof.
  intros Hnul Hamp Hf Hs Hh Hold Hmax.
  destruct (main_iter_builtin BUFSIZ w st line h_history evs h jl _ Hnul Hamp Hf Hs Hh)
    as (rest & st1 & Hst1 & _ & _ & _ & _ & ->).
  cbn [call_internal]. rewrite Hst1, hist_store_snoc. unfold builtin_history.
  erewrite builtin_history_from_snoc; [|exact Hold|reflexivity|by rewrite N.add_0_l].
  cbn [mbind option_bind after background fmap option_fmap option_map].
  rewrite cstr_app_nul by (intros Hin; by apply rstrip_elem in Hin).
  exists st1. rewrite N.add_0_l. by rewrite <- !app_assoc.
Qed.

Lemma history_line_witness :
  ∃ st',
    main_iter 8192 (quiet 100)
      {| histlist := three_commands; jobheap := ∅; joblist := None;
         count_commands := 4; environ := [] |} (ln "history")
      = Some ([EvPrompt 4 false; EvFgets (ln "history");
               EvHistory 1 (Some (cs "ls")) false;
               EvHistory 2 (Some (cs "echo hi")) false;
               EvHistory 3 (Some (cs "pwd")) false;
               EvHistory 4 (Some (cs "history")) false], Continue st').
Proof.
  destruct (history_line 8192 (quiet 100)
              {| histlist := three_commands; jobheap := ∅; joblist := None;
                 count_commands := 4; environ := [] |}
              (cs "history" ++ [LF]) three_commands
              [EvHistory 1 (Some (cs "ls")) false;
               EvHistory 2 (Some (cs "echo hi")) false;
               EvHistory 3 (Some (cs "pwd")) false] [] ∅ None) as [st' H].
  - apply (bool_decide_unpack _). vm_compute. exact I.
  - apply (bool_decide_unpack _). vm_compute. exact I.
  - vm_compute; reflexivity.
  - vm_compute; reflexivity.
  - vm_compute; reflexivity.
  - vm_compute; reflexivity.
  - vm_compute; reflexivity.
  - exists st'. exact H.
Defined.

Lemma arguments_nonblank line init lastf :
  NUL ∉ line → arguments line = init ++ [lastf] → blank_line line = false.
Proof.
  intros Hnul Ha. destruct (blank_line line) eqn:Hb; [|done]. exfalso.
  rewrite blank_line_spec, cstr_app_nul in Hb by done.
  assert (Hws : Forall (λ c, is_ws c = true) line).
  { apply Forall_forall. intros c Hc.
    apply (proj1 (forallb_forall is_ws line) Hb). by apply list_elem_of_In. }
  unfold arguments in Ha.
  destruct (find_internal (line ++ [NUL])) as [f|] eqn:Hf.
  - apply find_internal_head in Hf as (c & x & Hx & Hc & Hcn & _).
    destruct line as [|a line]; cbn [app] in Hx; injection Hx as <- _; [done|].
    apply Forall_inv in Hws. congruence.
  - rewrite words_nil in Ha by done. by destruct init.
Qed.

(** X18: after an iteration on a line that is not a history
    reference, the newest node of the history holds what
    [parse_inbuf] made of the line: the built-in, the background flag,
    and the argument vector.  For a built-in the vector is the whole
    line as one argument; otherwise it is the tokens of the line. *)
Theorem history_records_line BUFSIZ w st line tr o st' init lastf :
  main_iter BUFSIZ w st (Some line) = Some (tr, o) →
  outcome_state o = Some st' →
  NUL ∉ line →
  (find_internal (line ++ [NUL]) = None → "!"%char ∉ line) →
  arguments line = init ++ [lastf] →
  ∃ e,
    last (histlist st') = Some e ∧
    internal e = find_internal (line ++ [NUL]) ∧
    background e = bool_decide ("&"%char ∈ lastf) ∧
    argv_text e = Some
      (if bool_decide (head lastf = Some "&"%char)
       then (Some <$> init) ++ [None; None]
       else (Some <$> init ++ [rstrip (before_amp lastf)]) ++ [None]).
Proof.
  intros H Ho Hnul Hexc Hargs.
  pose proof (main_iter_session _ _ _ _ _ _ _ H Ho) as Hs.
  rewrite (arguments_nonblank line init lastf Hnul Hargs) in Hs.
  destruct Hs as (_ & hl & evp & ret & b' & Hh & Hp & ->).
  destruct (parse_inbuf_args hl line init lastf Hnul Hexc Hargs)
    as (r & b2 & Hp2 & Hint & _ & Hbg & Hargv).
  rewrite Hp in Hp2. injection Hp2 as -> -> ->.
  apply hist_append_Some in Hh. rewrite Hh, hist_store_snoc, last_snoc.
  eexists. split; [reflexivity|]. cbn [internal background]. done.
Qed.

Lemma history_records_line_witness :
  ∃ tr st' e,
    main_iter 8192 (quiet 100) (shell_init []) (ln "ls -l /tmp") = Some (tr, Continue st') ∧
    last (histlist st') = Some e ∧ internal e = None ∧ background e = false ∧
    argv_text e = Some [Some (cs "ls"); Some (cs "-l"); Some (cs "/tmp"); None].
Proof.
  eexists _, _.
  destruct (history_records_line 8192 (quiet 100) (shell_init []) (cs "ls -l /tmp" ++ [LF])
              _ _ _ [cs "ls"; cs "-l"] (cs "/tmp") ltac:(vm_compute; reflexivity) eq_refl)
    as (e & He & Hi & Hb & Ha).
  - apply (bool_decide_unpack _). vm_compute. exact I.
  - intros _. apply (bool_decide_unpack _). vm_compute. exact I.
  - vm_compute; reflexivity.
  - exists e. split; [vm_compute; reflexivity|]. split; [exact He|].
    split; [exact Hi|]. split; [exact Hb|]. exact Ha.
Defined.

(** ** Processes *)

Lemma no_process_app ev1 ev2 : no_process ev1 → no_process ev2 → no_process (ev1 ++ ev2).
Proof. apply Forall_app_2. Qed.

Lemma sweep_from_no_process fuel w h jl jptr jprev cnt ev h' jl' :
  sweep_from fuel w h jl jptr jprev cnt = Some (ev, h', jl') → no_process ev.
Proof.
  revert h jl jptr jprev cnt ev h' jl'.
  induction fuel as [|fuel IH]; intros h jl [a|] jprev cnt ev h' jl' H;
    simpl in H; simplify_eq; try by constructor.
  destruct (h !! a) as [j|]; [simpl in H|done].
  destruct (waitpid_nohang w (pid j)) as [[code|s core]|].
  - destruct (next j) as [n|].
    + destruct (match jprev with Some _ => _ | None => _ end) as [[h1 jl1]|];
        [simpl in H|done].
      rewrite lookup_delete_eq in H. done.
    + destruct (match jl with Some _ => _ | None => _ end); simplify_eq/=.
      by repeat constructor.
  - destruct (sweep_from fuel _ _ _ _ _ _) as [[[ev1 h1] jl1]|] eqn:Hr; simplify_eq/=.
    apply IH in Hr. by repeat constructor.
  - destruct (sweep_from fuel _ _ _ _ _ _) as [[[ev1 h1] jl1]|] eqn:Hr; simplify_eq/=.
    constructor; [done|]. by apply IH in Hr.
Qed.

Lemma builtin_history_from_no_process hp cnt ev :
  builtin_history_from hp cnt = Some ev → no_process ev.
Proof.
  revert cnt ev. induction hp as [|h hp IH]; intros cnt ev H; simpl in H.
  - simplify_eq. constructor.
  - simplify_option_eq. constructor; [done|]. by eapply IH.
Qed.

Lemma builtin_jobs_from_no_process fuel h jp cnt ev :
  builtin_jobs_from fuel h jp cnt = Some ev → no_process ev.
Proof.
  revert jp cnt ev. induction fuel as [|fuel IH]; intros [a|] cnt ev H; simpl in H;
    simplify_option_eq; try by constructor.
  constructor; [done|]. by eapply IH.
Qed.

Lemma builtin_set_no_process env line ev env' :
  builtin_set env line = Some (ev, env') → no_process ev.
Proof.
  unfold builtin_set. intros H.
  destruct (drop 3 line) as [|c0 p0]; [done|].
  destruct (drop _ (c0 :: p0)) as [|c p]; [done|].
  destruct (is_nul c); simplify_eq.
  - unfold no_process. rewrite Forall_fmap. by apply Forall_true.
  - apply no_process_app; [case_bool_decide|]; by repeat constructor.
Qed.

(** A built-in starts no process and leaves the job table alone. *)
Lemma call_internal_no_process f st arg ev o :
  call_internal f st arg = Some (ev, o) →
  no_process ev ∧
  ∀ st', outcome_state o = Some st' → jobheap st' = jobheap st ∧ joblist st' = joblist st.
Proof.
  destruct f; simpl; intros H.
  - destruct arg as [line|]; simplify_eq/=. split; [|by intros ? [= <-]].
    unfold builtin_echo. repeat case_match; by repeat constructor.
  - destruct arg as [line|]; [simpl in H|done].
    destruct (builtin_exit line) as [[]|]; simplify_eq/=;
      (split; [constructor|by intros ? [= <-]]).
  - simplify_eq. split; [by repeat constructor|by intros ? [= <-]].
  - destruct (builtin_history _) eqn:Hb; simplify_eq/=.
    split; [by eapply builtin_history_from_no_process|by intros ? [= <-]].
  - destruct (builtin_jobs _ _) eqn:Hb; simplify_eq/=.
    split; [by eapply builtin_jobs_from_no_process|by intros ? [= <-]].
  - destruct arg as [line|]; [simpl in H|done].
    destruct (builtin_set _ line) as [[ev' env']|] eqn:Hb; simplify_eq/=.
    split; [by eapply builtin_set_no_process|by intros ? [= <-]].
Qed.

Lemma parse_inbuf_no_process hl b ev ret b' :
  parse_inbuf hl b = Some (ev, ret, b') → no_process ev.
Proof.
  assert (Ht : ∀ int b cl, parse_tail int b cl = Some (ev, ret, b') → no_process ev).
  { intros int b0 cl. unfold parse_tail, parse_trim. intros H.
    destruct (last cl); [simpl in H|done].
    destruct (strchr _ _); simplify_eq; constructor. }
  unfold parse_inbuf. intros H.
  destruct (find_internal b); [by eauto|].
  destruct (strchr b "!") as [e|].
  - destruct (_ =? 0); [simplify_eq; by repeat constructor|].
    destruct (hist_find _ _ _) as [hp cnt].
    destruct (negb _); [simplify_eq; by repeat constructor|].
    destruct hp; simplify_eq/=. constructor.
  - destruct (tokenize _ _ _ _) as [[b1 cl]|]; [simpl in H; eauto|done].
Qed.

(** [launch] always calls [fork]; with the result zero it ends in
    [exit] or in [execvp]. *)
Lemma launch_forks w st d b ev o :
  launch w st d b = Some (ev, o) →
  head ev = Some EvFork ∧ (fork w = ForkChild → ∀ st', o ≠ Continue st').
Proof.
  unfold launch. intros H. apply after_Some in H as (tr' & H & ->).
  split; [done|]. intros Hf st' ->. rewrite Hf in H.
  destruct (internal d).
  - destruct (call_internal _ _ _) as [[ev1 o1]|]; simplify_eq/=.
    destruct (outcome_state o1); simplify_eq/=.
  - simplify_option_eq. apply after_Some in H as (tr'' & H & ->).
    destruct (execvp w); simplify_eq/=.
Qed.

Section Processes.

Variable BUFSIZ : N.

(** X19: an iteration whose trace has no [fork], no [execvp] and no
    [Begin] line leaves the job table as the sweep left it: only the
    sweep and the launch of a background command touch the table. *)
Theorem table_changes_by_launch w st input tr o st' evs h jl :
  main_iter BUFSIZ w st input = Some (tr, o) →
  outcome_state o = Some st' →
  sweep w st = Some (evs, h, jl) →
  no_process tr →
  match input with
  | Some _ => jobheap st' = h ∧ joblist st' = jl
  | None => jobheap st' = jobheap st ∧ joblist st' = joblist st
  end.
Proof.
  intros H Ho Hs Htr. destruct input as [line|]; [|unfold main_iter in H; by simplify_eq/=].
  apply main_iter_line in H as (evs' & h' & jl' & Hs' & H).
  rewrite Hs in Hs'. injection Hs' as <- <- <-. cbn zeta in H.
  destruct (blank_line line).
  { destruct H as [-> ->]. by simplify_eq/=. }
  destruct H as (hl & evp & ret & b' & Hh & Hp & H).
  destruct ret as [d|]; [|destruct H as [-> ->]; by simplify_eq/=].
  destruct H as (evd & Hd & ->).
  unfold no_process in Htr. rewrite !Forall_app in Htr. destruct Htr as (_ & _ & _ & Hevd).
  unfold dispatch in Hd.
  assert (Hl : ∀ st1, launch w st1 d b' = Some (evd, o) → False).
  { intros st1 [Hhd _]%launch_forks. destruct evd as [|e evd]; [done|].
    injection Hhd as ->. by apply Forall_inv in Hevd. }
  destruct (internal d) as [f|]; [destruct (background d)|]; try (by apply Hl in Hd).
  destruct (if historical d then _ else _) as [arg|]; [|done]. cbn [mbind option_bind] in Hd.
  apply call_internal_no_process in Hd as [_ Hst]. by apply (Hst st') in Ho.
Qed.

(** X20: in the process where [fork] returned zero, an iteration that
    called [fork] never comes back to the prompt: it ends in [exit] or
    in a successful [execvp]. *)
Theorem child_never_prompts w st input tr st' :
  main_iter BUFSIZ w st input = Some (tr, Continue st') →
  fork w = ForkChild →
  no_process tr.
Proof.
  intros H Hf. destruct input as [line|]; [|unfold main_iter in H; by simplify_eq/=].
  apply main_iter_line in H as (evs & h & jl & Hs & H). cbn zeta in H.
  assert (Hpre : no_process [prompt w st; EvFgets (Some line)]) by (by repeat constructor).
  apply sweep_from_no_process in Hs.
  destruct (blank_line line).
  { destruct H as [-> _]. by apply no_process_app. }
  destruct H as (hl & evp & ret & b' & Hh & Hp & H).
  apply parse_inbuf_no_process in Hp.
  destruct ret as [d|]; [|destruct H as [-> _]; by repeat apply no_process_app].
  destruct H as (evd & Hd & ->).
  repeat apply no_process_app; try done.
  unfold dispatch in Hd.
  assert (Hl : ∀ st1, launch w st1 d b' = Some (evd, Continue st') → no_process evd).
  { intros st1 [_ Hc]%launch_forks. by destruct (Hc Hf st'). }
  destruct (internal d) as [f|]; [destruct (background d)|]; try (by eapply Hl).
  destruct (if historical d then _ else _) as [arg|]; [|done]. cbn [mbind option_bind] in Hd.
  by apply call_internal_no_process in Hd as [? _].
Qed.

End Processes.

Lemma table_changes_by_launch_witness :
  ∃ tr st',
    main_iter 8192 (quiet 102) two_jobs (ln "echo hi") = Some (tr, Continue st') ∧
    jobheap st' = jobheap two_jobs ∧ joblist st' = Some 0%nat.
Proof.
  eexists _, _. split; [vm_compute; reflexivity|].
  apply (table_changes_by_launch 8192 (quiet 102) two_jobs (ln "echo hi") _ (Continue _) _
           [EvWaitpid 100 true; EvWaitpid 101 true] (jobheap two_jobs) (Some 0%nat)
           ltac:(vm_compute; reflexivity) eq_refl ltac:(vm_compute; reflexivity)).
  repeat constructor.
Defined.

Lemma child_never_prompts_witness :
  ∃ tr st',
    main_iter 8192
      {| getuid := 1000; waitpid_nohang := λ _, WaitNone; fork := ForkChild;
         waitpid_fg := WExited 0; execvp := None |}
      (shell_init []) (ln "help") = Some (tr, Continue st') ∧
    no_process tr.
Proof.
  eexists _, _. split; [vm_compute; reflexivity|].
  apply (child_never_prompts 8192
           {| getuid := 1000; waitpid_nohang := λ _, WaitNone; fork := ForkChild;
              waitpid_fg := WExited 0; execvp := None |}
           (shell_init []) (ln "help") _ _ ltac:(vm_compute; reflexivity) eq_refl).
Defined.

(** ** Commands that are not built in, and background commands *)

Section Launch.

Variable BUFSIZ : N.

(** The iteration up to the dispatch, for a line [parse_inbuf] has a
    record for. *)
Lemma main_iter_parsed w st line evs h jl hl evp r b' :
  blank_line line = false →
  sweep w st = Some (evs, h, jl) →
  hist_append BUFSIZ (histlist st) = Some hl →
  parse_inbuf hl (line ++ [NUL]) = Some (evp, Some r, b') →
  main_iter BUFSIZ w st (Some line)
    = after ([prompt w st; EvFgets (Some line)] ++ evs ++ evp)
            (dispatch w {| histlist := hist_store hl r; jobheap := h; joblist := jl;
                           count_commands := (count_commands st + 1) mod ULONG_MOD;
                           environ := environ st |} r b').
Proof.
  intros Hb Hs Hh Hp. unfold main_iter. rewrite Hs. cbn [mbind option_bind].
  rewrite Hb. cbn [histlist with_jobs with_count with_hist].
  rewrite Hh. cbn [mbind option_bind histlist with_hist]. rewrite Hp.
  cbn [mbind option_bind]. by rewrite !after_app, <- !app_assoc.
Qed.

End Launch.

Lemma words_last_plain line init lastf :
  "&"%char ∉ line → words line = init ++ [lastf] →
  ("&"%char ∉ lastf) ∧ (head lastf ≠ Some "&"%char) ∧ rstrip (before_amp lastf) = lastf.
Proof.
  intros Hamp Hw. pose proof (words_Forall line) as Hall. rewrite Hw in Hall.
  apply Forall_app in Hall as [_ Hl]. apply Forall_inv in Hl as [_ Hl].
  assert (Hno : "&"%char ∉ lastf).
  { intros Hin. eapply Forall_forall in Hl; [|exact Hin]. by destruct Hl. }
  split; [done|]. split.
  - destruct lastf as [|c l]; [done|]. intros [= ->]. apply Hno. by left.
  - rewrite before_amp_no_amp by done. apply rstrip_nonws.
    eapply Forall_impl; [exact Hl|]. by intros c [? _].
Qed.

(** X21: a line without ['&'] and ['!'] that does not start with a
    built-in is run by [fork]: the child calls [execvp] with the first
    token as the program and the tokens of the line, followed by a null
    pointer, as the argument vector, and reports the error and exits
    when [execvp] returns; the parent waits for that child and goes
    back to the prompt. *)
Theorem external_command_line BUFSIZ w st line cmd args evs h jl hl :
  NUL ∉ line → "!"%char ∉ line → "&"%char ∉ line →
  find_internal (line ++ [NUL]) = None →
  words line = cmd :: args →
  sweep w st = Some (evs, h, jl) →
  hist_append BUFSIZ (histlist st) = Some hl →
  ∃ st1,
    jobheap st1 = h ∧ joblist st1 = jl ∧ environ st1 = environ st ∧
    main_iter BUFSIZ w st (Some line)
      = Some ([prompt w st; EvFgets (Some line)] ++ evs ++ EvFork ::
                match fork w with
                | ForkChild =>
                    EvExecvp (Some cmd) ((Some <$> cmd :: args) ++ [None]) ::
                      match execvp w with
                      | None => []
                      | Some err => [EvFault (FExec (Some cmd) err)]
                      end
                | ForkError err => [EvFault (FErr err)]
                | ForkParent child => EvWaitpid child false :: wait_handler (waitpid_fg w)
                end,
              match fork w, execvp w with
              | ForkChild, None => Replaced
              | ForkChild, Some _ => Exited st1
              | _, _ => Continue st1
              end).
Proof.
  intros Hnul Hexc Hamp Hf Hw Hs Hh.
  assert (Hsplit : ∃ init lastf, cmd :: args = init ++ [lastf]).
  { exists (removelast (cmd :: args)), (List.last (cmd :: args) cmd).
    by apply app_removelast_last. }
  destruct Hsplit as (init & lastf & Hsplit).
  assert (Hargs : arguments line = init ++ [lastf]).
  { unfold arguments. by rewrite Hf, Hw. }
  destruct (words_last_plain line init lastf Hamp) as (Hno & Hhd & Htrim);
    [by rewrite Hw|].
  destruct (parse_inbuf_args hl line init lastf Hnul (λ _, Hexc) Hargs)
    as (r & b' & Hp & Hint & _ & Hbg & Hargv).
  rewrite Hf in Hint. rewrite bool_decide_eq_false_2 in Hbg by done.
  rewrite bool_decide_eq_false_2, Htrim, <- Hsplit in Hargv by done.
  rewrite (main_iter_parsed BUFSIZ w st line evs h jl hl [] r b'
             (arguments_nonblank line init lastf Hnul Hargs) Hs Hh Hp).
  eexists. split; [|split; [|split]]; cycle 3.
  - unfold dispatch, launch. rewrite Hint, Hbg.
    unfold argv_text in Hargv.
    destruct (cmdvec r) as [cv|]; [|done]. cbn [fmap option_fmap option_map] in Hargv.
    injection Hargv as Hargv. cbn [mbind option_bind].
    destruct cv as [|file cv]; [done|]. cbn [head mbind option_bind].
    rewrite Hargv. cbn [fmap list_fmap app] in Hargv. injection Hargv as Hfile _.
    rewrite Hfile. rewrite app_nil_r.
    destruct (fork w); [destruct (execvp w)|..]; cbn [after app];
      rewrite <- ?app_assoc; reflexivity.
  - reflexivity.
  - reflexivity.
  - reflexivity.
Qed.

Lemma external_command_line_witness :
  ∃ st1,
    main_iter 8192
      {| getuid := 0; waitpid_nohang := λ _, WaitNone; fork := ForkChild;
         waitpid_fg := WExited 0; execvp := Some (cs "No such file or directory") |}
      (shell_init []) (ln "  frob -x")
      = Some ([EvPrompt 1 true; EvFgets (ln "  frob -x"); EvFork;
               EvExecvp (Some (cs "frob")) [Some (cs "frob"); Some (cs "-x"); None];
               EvFault (FExec (Some (cs "frob")) (cs "No such file or directory"))],
              Exited st1).
Proof.
  destruct (external_command_line 8192
              {| getuid := 0; waitpid_nohang := λ _, WaitNone; fork := ForkChild;
                 waitpid_fg := WExited 0; execvp := Some (cs "No such file or directory") |}
              (shell_init []) (cs "  frob -x" ++ [LF]) (cs "frob") [cs "-x"] [] ∅ None
              [Input_zero]) as (st1 & _ & _ & _ & H).
  - apply (bool_decide_unpack _). vm_compute. exact I.
  - apply (bool_decide_unpack _). vm_compute. exact I.
  - apply (bool_decide_unpack _). vm_compute. exact I.
  - vm_compute; reflexivity.
  - vm_compute; reflexivity.
  - vm_compute; reflexivity.
  - vm_compute; reflexivity.
  - exists st1. exact H.
Defined.


